(** * Repository resolver of claude-fix: a shallow embedding of
      [src/repo-resolver.js] and the properties of its specification.

    Modelling conventions.
    - A JavaScript string is a list of code units.  Code units are the 8-bit
      [ascii] values, read as the Latin-1 range of UTF-16: [toLowerCase],
      [trim] and the regular expression classes are written out for all 256
      of them.
    - [null] results are [None].
    - The file system, the [git remote -v] subprocess, the environment and
      the clock are the fields of a [World] record that the functions read;
      the two files the resolver rewrites and its console output are the
      mutable part of that record and are threaded through a small
      state-and-exception monad. *)

From Stdlib Require Import List Ascii String ZArith Lia Bool.
From stdpp Require Import base strings list gmap.
Import ListNotations.

Open Scope list_scope.

(** ** JavaScript strings *)

Abbreviation jsstring := (list ascii).

(** A string literal of the source. *)
Definition js (s : string) : jsstring := list_ascii_of_string s.

Module JsString.

Definition code (c : ascii) : nat := nat_of_ascii c.

(** [String.prototype.toLowerCase] on one Latin-1 code unit: A-Z and the
    accented capitals U+00C0..U+00DE (U+00D7, the multiplication sign,
    apart) move up by 32. *)
Definition lowerChar (c : ascii) : ascii :=
  let n := code c in
  if ((65 <=? n) && (n <=? 90)
      || ((192 <=? n) && (n <=? 222) && negb (n =? 215)))%nat
  then ascii_of_nat (n + 32) else c.

Definition toLowerCase (s : jsstring) : jsstring := map lowerChar s.

(** The regular expression class [\s] and the characters [trim] removes:
    TAB, LF, VT, FF, CR, SP and NBSP. *)
Definition isWhiteSpace (c : ascii) : bool :=
  let n := code c in
  ((9 <=? n) && (n <=? 13) || (n =? 32) || (n =? 160))%nat.

(** The characters the regular expression [.] refuses: LF and CR. *)
Definition isLineTerminator (c : ascii) : bool :=
  let n := code c in ((n =? 10) || (n =? 13))%nat.

Fixpoint dropWhile (p : ascii -> bool) (s : jsstring) : jsstring :=
  match s with
  | [] => []
  | c :: t => if p c then dropWhile p t else s
  end.

Fixpoint takeWhile (p : ascii -> bool) (s : jsstring) : jsstring :=
  match s with
  | [] => []
  | c :: t => if p c then c :: takeWhile p t else []
  end.

Definition dropWhileEnd (p : ascii -> bool) (s : jsstring) : jsstring :=
  rev (dropWhile p (rev s)).

(** [String.prototype.trim]. *)
Definition trim (s : jsstring) : jsstring :=
  dropWhileEnd isWhiteSpace (dropWhile isWhiteSpace s).

Definition eqb (a b : jsstring) : bool := bool_decide (a = b).

(** [stripPrefix p s] is the rest of [s] after a leading [p]. *)
Fixpoint stripPrefix (p s : jsstring) : option jsstring :=
  match p, s with
  | [], _ => Some s
  | _ :: _, [] => None
  | a :: p', b :: s' => if bool_decide (a = b) then stripPrefix p' s' else None
  end.

(** [stripSuffix p s] is [s] without a trailing [p]. *)
Definition stripSuffix (p s : jsstring) : option jsstring :=
  match stripPrefix (rev p) (rev s) with
  | Some r => Some (rev r)
  | None => None
  end.

Definition endsWith (p s : jsstring) : bool :=
  match stripSuffix p s with Some _ => true | None => false end.

Definition startsWith (p s : jsstring) : bool :=
  match stripPrefix p s with Some _ => true | None => false end.

(** [String.prototype.split] on a one-character separator. *)
Fixpoint splitOn (sep : ascii) (s : jsstring) : list jsstring :=
  match s with
  | [] => [[]]
  | c :: t =>
      if bool_decide (c = sep) then [] :: splitOn sep t
      else match splitOn sep t with
           | [] => [[c]]
           | seg :: segs => (c :: seg) :: segs
           end
  end.

(** [Array.prototype.includes] on strings. *)
Definition includes (l : list (option jsstring)) (x : jsstring) : bool :=
  existsb (fun o => match o with Some y => eqb y x | None => false end) l.

End JsString.
Import JsString.

(** ** URL normalization *)

(** [s.replace(/\.git$/, '')]. *)
Definition stripDotGit (s : jsstring) : jsstring :=
  match stripSuffix (js ".git") s with Some r => r | None => s end.

(** [s.replace(/\/+$/, '')]. *)
Definition stripSlashes (s : jsstring) : jsstring :=
  dropWhileEnd (fun c => bool_decide (c = "/"%char)) s.

(** [s.replace(/^https?:\/\//, '')]. *)
Definition stripScheme (s : jsstring) : jsstring :=
  match stripPrefix (js "http://") s with
  | Some r => r
  | None => match stripPrefix (js "https://") s with
            | Some r => r
            | None => s
            end
  end.

(** The capture of a final [(.+)]: the longest run of characters other than
    line terminators, which has to be nonempty. *)
Definition dotPlus (s : jsstring) : option jsstring :=
  match takeWhile (fun c => negb (isLineTerminator c)) s with
  | [] => None
  | g => Some g
  end.

(** [u.match(/^git@ssh\.dev\.azure\.com:v3\/(.+)/)], giving group 1. *)
Definition azureMatch (u : jsstring) : option jsstring :=
  match stripPrefix (js "git@ssh.dev.azure.com:v3/") u with
  | Some rest => dotPlus rest
  | None => None
  end.

(** [u.match(/^git@([^:]+):(.+)/)], giving groups 1 and 2. *)
Definition sshMatch (u : jsstring) : option (jsstring * jsstring) :=
  match stripPrefix (js "git@") u with
  | Some r =>
      let notColon := fun c => negb (bool_decide (c = ":"%char)) in
      match takeWhile notColon r, dropWhile notColon r with
      | (_ :: _) as host, _ :: rest =>
          match dotPlus rest with
          | Some p => Some (host, p)
          | None => None
          end
      | _, _ => None
      end
  | None => None
  end.

Definition normalizeRepoUrl (url : jsstring) : option jsstring :=
  match url with
  | [] => None
  | _ =>
      let u := trim url in
      match azureMatch u with
      | Some rest =>
          Some (stripDotGit (toLowerCase (js "dev.azure.com/" ++ rest)))
      | None =>
          match sshMatch u with
          | Some (host, p) =>
              Some (stripDotGit (toLowerCase (host ++ js "/" ++ p)))
          | None =>
              let u := stripScheme u in
              let u := stripSlashes (stripDotGit u) in
              Some (toLowerCase u)
          end
      end
  end.

(** The last path segment of a normalized URL. *)
Definition extractRepoName (normalizedUrl : jsstring) : option jsstring :=
  match normalizedUrl with
  | [] => None
  | _ => Some (List.last (splitOn "/"%char normalizedUrl) [])
  end.

(** ** The world the resolver runs in *)

(** An element of [fs.readdirSync(dir, { withFileTypes: true })]. *)
Record Dirent := { name : jsstring; isDirectory : bool }.

(** A cache entry, [{ path, lastUsed }]. *)
Record Entry := { path : jsstring; lastUsed : jsstring }.

(** The value of [GIT_SEARCH_MAX_DEPTH] in the parsed configuration:
    [claude-fix config set] stores [parseInt(value, 10)], and
    [JSON.stringify] writes the NaN of an unparsable value as [null]. *)
Inductive DepthSetting := DepthUnset | DepthNull | DepthNum (z : Z).

(** The parsed [config.json], as [claude-fix config set] writes it: an
    object whose [GIT_SEARCH_PATHS], when present, is a list of strings
    ([value.split(',').map(trim)]).  A hand-written file that holds
    something else there is not represented: on a string or a number
    [searchPaths.join] is not a function and [resolveRepo] throws a
    TypeError, as it does at [config.GIT_SEARCH_PATHS] when the file holds
    [null]. *)
Record Config := {
  GIT_SEARCH_PATHS : option (list jsstring);
  GIT_SEARCH_MAX_DEPTH : DepthSetting
}.

(** What a call of [fs.writeFileSync(CACHE_FILE, text)] that throws leaves
    behind.  The file is opened with flag [w], which empties it, and then
    written: a call refused at the open (a read-only file or directory)
    leaves the file as it was; a call that fails later leaves a prefix of
    [text].  [text] is one JSON object and a line feed, so a prefix parses
    only when it is [complete], that is, lacks at most the line feed. *)
Inductive FailedWrite := WriteRefused | WriteCut (complete : bool).

(** What the resolver reads and never changes.
    - [HOME] is [process.env.HOME] when [scanForRepo] reads it.  The module
      reads it once before, when it is loaded
      ([path.join(process.env.HOME, ...)], which throws on [undefined]), so
      it is [None] only when the variable was removed after that.
    - [readdirSync dir] is [None] when the call throws.
    - [gitRemoteV dir] is the standard output of [git -C dir remote -v], or
      [None] when [execSync] throws (not a repository, no git, timeout).
    - [configFile] is the parsed [config.json], or [None] when the file is
      missing or does not parse.
    - [cacheWritable] tells whether [fs.writeFileSync(CACHE_FILE, ...)]
      succeeds; it throws otherwise, and [failedWrite] tells what the file
      holds then.
    - [clock n] is what the [n]-th [new Date().toISOString()] returns. *)
Record World := {
  HOME : option jsstring;
  readdirSync : jsstring -> option (list Dirent);
  existsSync : jsstring -> bool;
  gitRemoteV : jsstring -> option jsstring;
  configFile : option Config;
  cacheWritable : bool;
  failedWrite : FailedWrite;
  clock : nat -> jsstring
}.

(** One line of [console.log] output. *)
Inductive LogLine :=
| LogInvalid (repoUrl : jsstring)
| LogResolving (normalized : jsstring)
| LogStalePathGone (p : option jsstring)
| LogStaleRemote (p : jsstring)
| LogCacheHit (normalized p : jsstring)
| LogScanning (searchPaths : list jsstring) (maxDepth : Z)
| LogFound (p : jsstring)
| LogNotFound (normalized : jsstring).

(** What the resolver changes: the cache file ([None] when it is missing or
    does not parse, else the own properties of the object it holds, which is
    an object of entries as [saveCache] writes it), the console, and the
    number of times the clock was read.

    A cache file that parses to something other than an object of entries
    is not represented.  [loadCache] returns whatever [JSON.parse] gives:
    on [null] both [cacheLookup] and [cacheStore] throw a TypeError at
    [cache[normalizedUrl]]; on a number, a string, a boolean or an array
    [cacheStore] sets a property that [JSON.stringify] does not write, so
    the entry is lost.  What is proved of the cache below is proved for a
    file that is missing, unparsable, or an object of entries. *)
Record State := {
  cacheFile : option (gmap jsstring Entry);
  console : list LogLine;
  ticks : nat
}.

(** ** A state monad with exceptions *)

Inductive Outcome (A : Type) :=
| Return (a : A) (s : State)
| Throw (s : State).
Arguments Return {A} a s.
Arguments Throw {A} s.

Definition M (A : Type) := State -> Outcome A.

Definition ret {A} (a : A) : M A := fun s => Return a s.

Definition bind {A B} (m : M A) (k : A -> M B) : M B :=
  fun s => match m s with
           | Return a s' => k a s'
           | Throw s' => Throw s'
           end.

Declare Scope resolver_scope.
Delimit Scope resolver_scope with M.
Notation "'let!' x ':=' m 'in' k" := (bind m (fun x => k))
  (at level 10, x name, m at level 100, k at level 200) : resolver_scope.
Notation "'do!' m 'in' k" := (bind m (fun _ => k))
  (at level 10, m at level 100, k at level 200) : resolver_scope.
Open Scope resolver_scope.

(** [console.log]. *)
Definition consoleLog (l : LogLine) : M unit :=
  fun s => Return tt {| cacheFile := cacheFile s;
                        console := console s ++ [l];
                        ticks := ticks s |}.

(** [new Date().toISOString()]. *)
Definition nowISO (w : World) : M jsstring :=
  fun s => Return (clock w (ticks s))
                  {| cacheFile := cacheFile s;
                     console := console s;
                     ticks := S (ticks s) |}.

(** ** Git helper *)

(** [line.split(/\s+/)]: the fields between maximal runs of white space;
    [inWs] tells that the previous character was white space. *)
Fixpoint splitWs (inWs : bool) (s : jsstring) : list jsstring :=
  match s with
  | [] => [[]]
  | c :: t =>
      if isWhiteSpace c then
        if inWs then splitWs true t else [] :: splitWs true t
      else match splitWs false t with
           | [] => [[c]]
           | seg :: segs => (c :: seg) :: segs
           end
  end.

(** [urls.add(u)] on a [Set] kept in insertion order. *)
Definition setAdd (urls : list jsstring) (u : jsstring) : list jsstring :=
  if bool_decide (u ∈ urls) then urls else urls ++ [u].

(** The loop over the lines of the output of [git remote -v]. *)
Definition parseRemotes (out : jsstring) : list jsstring :=
  fold_left
    (fun urls line =>
       match splitWs false line with
       | _ :: ((_ :: _) as u) :: _ => setAdd urls u
       | _ => urls
       end)
    (splitOn "010"%char out) [].

Definition getRepoRemotes (w : World) (dirPath : jsstring) : list jsstring :=
  match gitRemoteV w dirPath with
  | Some out => parseRemotes out
  | None => []
  end.

(** ** Cache *)

(** The cache is a plain JavaScript object used as a map.  Its own
    properties are a [gmap]; a key it does not own is looked up in
    [Object.prototype], whose members are these. *)
Definition objectPrototypeKeys : list jsstring :=
  map js [ "constructor"; "__defineGetter__"; "__defineSetter__";
           "hasOwnProperty"; "__lookupGetter__"; "__lookupSetter__";
           "isPrototypeOf"; "propertyIsEnumerable"; "toString"; "valueOf";
           "__proto__"; "toLocaleString" ]%string.

(** The value of [cache[key]] when it is not [undefined]: an entry the cache
    owns, or a member of [Object.prototype], which is truthy and has no
    [path]. *)
Inductive PropValue := OwnEntry (e : Entry) | Inherited.

(** [cache[key]]. *)
Definition getProp (cache : gmap jsstring Entry) (key : jsstring)
  : option PropValue :=
  match cache !! key with
  | Some e => Some (OwnEntry e)
  | None => if bool_decide (key ∈ objectPrototypeKeys) then Some Inherited
            else None
  end.

(** [cache[key] = e]: an assignment to [__proto__] reaches the setter of
    [Object.prototype], which replaces the prototype of [cache] and adds no
    own property, unless [cache] owns a property of that name already. *)
Definition setProp (cache : gmap jsstring Entry) (key : jsstring) (e : Entry)
  : gmap jsstring Entry :=
  if bool_decide (key = js "__proto__") && bool_decide (cache !! key = None)
  then cache else <[key := e]> cache.

(** [loadCache]: the object the file holds, [{}] when the file is missing
    or does not parse. *)
Definition loadCache : M (gmap jsstring Entry) :=
  fun s => Return (match cacheFile s with Some m => m | None => ∅ end) s.

(** [saveCache]: [fs.writeFileSync] is not caught.  When it throws the
    file is as it was, or holds a prefix of the new text. *)
Definition saveCache (w : World) (cache : gmap jsstring Entry) : M unit :=
  fun s => if cacheWritable w
           then Return tt {| cacheFile := Some cache;
                             console := console s;
                             ticks := ticks s |}
           else match failedWrite w with
                | WriteRefused => Throw s
                | WriteCut complete =>
                    Throw {| cacheFile := if complete then Some cache else None;
                             console := console s;
                             ticks := ticks s |}
                end.

(** A write of the cache file that throws and leaves a file that does not
    parse: every entry is lost. *)
Definition cutsCacheFile (w : World) : bool :=
  negb (cacheWritable w)
  && match failedWrite w with WriteCut false => true | _ => false end.

Definition cacheLookup (w : World) (normalizedUrl : jsstring)
  : M (option jsstring) :=
  let! cache := loadCache in
  match getProp cache normalizedUrl with
  | None => ret None
  | Some Inherited =>
      (* [entry.path] is [undefined], and [fs.existsSync(undefined)] is
         [false] *)
      do! saveCache w (delete normalizedUrl cache) in
      do! consoleLog (LogStalePathGone None) in
      ret None
  | Some (OwnEntry entry) =>
      if negb (existsSync w (path entry)) then
        do! saveCache w (delete normalizedUrl cache) in
        do! consoleLog (LogStalePathGone (Some (path entry))) in
        ret None
      else
        let remotes := getRepoRemotes w (path entry) in
        let remoteNorms := map normalizeRepoUrl remotes in
        if negb (includes remoteNorms normalizedUrl) then
          do! saveCache w (delete normalizedUrl cache) in
          do! consoleLog (LogStaleRemote (path entry)) in
          ret None
        else
          let! t := nowISO w in
          do! saveCache w (<[normalizedUrl :=
                               {| path := path entry; lastUsed := t |}]> cache) in
          do! consoleLog (LogCacheHit normalizedUrl (path entry)) in
          ret (Some (path entry))
  end.

Definition cacheStore (w : World) (normalizedUrl resolvedPath : jsstring)
  : M unit :=
  let! cache := loadCache in
  let! t := nowISO w in
  saveCache w (setProp cache normalizedUrl
                 {| path := resolvedPath; lastUsed := t |}).

(** ** Filesystem scan *)

Definition SKIP_DIRS : list jsstring :=
  map js [ ".git"; "node_modules"; "dist"; ".bare"; "__pycache__";
           "vendor"; ".venv"; "build"; ".cache"; ".next"; ".turbo" ]%string.

(** [path.join(dir, name)] for a normalized [dir] and an entry name of that
    directory. *)
Definition pathJoin (dir entryName : jsstring) : jsstring :=
  dir ++ js "/" ++ entryName.

(** [if (result) return result]: a string counts when it is not empty. *)
Definition truthy (r : option jsstring) : bool :=
  match r with Some (_ :: _) => true | _ => false end.

(** The test of a directory whose name matched: a [.git] entry and a remote
    that normalizes to the URL. *)
Definition isCheckoutOf (w : World) (normalizedUrl full : jsstring) : bool :=
  existsSync w (pathJoin full (js ".git"))
  && includes (map normalizeRepoUrl (getRepoRemotes w full)) normalizedUrl.

(** The [for] loop of [walkDir] over the entries of [dir]; [recurse full] is
    the recursive call on the child [full]. *)
Fixpoint walkEntries (w : World) (recurse : jsstring -> option jsstring)
    (dir repoName normalizedUrl : jsstring) (entries : list Dirent)
  : option jsstring :=
  match entries with
  | [] => None
  | entry :: rest =>
      if negb (isDirectory entry) then
        walkEntries w recurse dir repoName normalizedUrl rest
      else if bool_decide (name entry ∈ SKIP_DIRS) then
        walkEntries w recurse dir repoName normalizedUrl rest
      else
        let full := pathJoin dir (name entry) in
        if eqb (toLowerCase (name entry)) repoName
           && isCheckoutOf w normalizedUrl full
        then Some full
        else
          let result := recurse full in
          if truthy result then result
          else walkEntries w recurse dir repoName normalizedUrl rest
  end.

(** [walkDir] with its recursion counted: every call that passes the depth
    test spends one unit of [fuel]. *)
Fixpoint walkDirFuel (fuel : nat) (w : World)
    (dir repoName normalizedUrl : jsstring) (depth maxDepth : Z)
  : option jsstring :=
  if (depth >? maxDepth)%Z then None
  else
    match fuel with
    | O => None
    | S fuel' =>
        match readdirSync w dir with
        | None => None
        | Some entries =>
            walkEntries w
              (fun full =>
                 walkDirFuel fuel' w full repoName normalizedUrl
                   (depth + 1) maxDepth)
              dir repoName normalizedUrl entries
        end
    end.

(** The calls that pass the depth test are nested at most
    [maxDepth + 1 - depth] deep. *)
Definition walkDir (w : World) (dir repoName normalizedUrl : jsstring)
    (depth maxDepth : Z) : option jsstring :=
  walkDirFuel (Z.to_nat (maxDepth + 1 - depth)) w dir repoName normalizedUrl
    depth maxDepth.

(** [raw.replace(/^~/, process.env.HOME)]; an undefined replacement is
    written as the string "undefined".  [HOME] is taken to hold no [$]. *)
Definition expandHome (w : World) (raw : jsstring) : jsstring :=
  match raw with
  | "~"%char :: rest =>
      match HOME w with
      | Some h => h ++ rest
      | None => js "undefined" ++ rest
      end
  | _ => raw
  end.

(** The [for] loop of [scanForRepo] over the search paths. *)
Fixpoint scanRoots (w : World) (repoName normalizedUrl : jsstring)
    (searchPaths : list jsstring) (maxDepth : Z) : option jsstring :=
  match searchPaths with
  | [] => None
  | raw :: rest =>
      let base := expandHome w raw in
      let result := walkDir w base repoName normalizedUrl 0 maxDepth in
      if truthy result then result
      else scanRoots w repoName normalizedUrl rest maxDepth
  end.

Definition scanForRepo (w : World) (normalizedUrl : jsstring)
    (searchPaths : list jsstring) (maxDepth : Z) : option jsstring :=
  match extractRepoName normalizedUrl with
  | Some ((_ :: _) as repoName) =>
      scanRoots w repoName normalizedUrl searchPaths maxDepth
  | _ => None
  end.

(** ** Configuration and the entry point *)

Definition loadConfig (w : World) : Config :=
  match configFile w with
  | Some c => c
  | None => {| GIT_SEARCH_PATHS := None; GIT_SEARCH_MAX_DEPTH := DepthUnset |}
  end.

(** [config.GIT_SEARCH_MAX_DEPTH || 4]. *)
Definition maxDepthOf (c : Config) : Z :=
  match GIT_SEARCH_MAX_DEPTH c with
  | DepthNum z => if (z =? 0)%Z then 4 else z
  | DepthNull | DepthUnset => 4
  end.

(** [config.GIT_SEARCH_PATHS || ['~/dd']]: an array is truthy, also an
    empty one. *)
Definition searchPathsOf (c : Config) : list jsstring :=
  match GIT_SEARCH_PATHS c with
  | Some l => l
  | None => [js "~/dd"]
  end.

Definition resolveRepo (w : World) (repoUrl : jsstring) : M (option jsstring) :=
  match normalizeRepoUrl repoUrl with
  | Some ((_ :: _) as normalized) =>
      do! consoleLog (LogResolving normalized) in
      let! cached := cacheLookup w normalized in
      if truthy cached then ret cached
      else
        let config := loadConfig w in
        let searchPaths := searchPathsOf config in
        let maxDepth := maxDepthOf config in
        do! consoleLog (LogScanning searchPaths maxDepth) in
        let found := scanForRepo w normalized searchPaths maxDepth in
        match found with
        | Some ((_ :: _) as p) =>
            do! consoleLog (LogFound p) in
            do! cacheStore w normalized p in
            ret (Some p)
        | _ =>
            do! consoleLog (LogNotFound normalized) in
            ret None
        end
  | _ =>
      do! consoleLog (LogInvalid repoUrl) in
      ret None
  end.

(** ** The spellings of one repository

    The input syntaxes the specification lists for a repository
    [host/owner/repo], used to state its cross-syntax property. *)

Inductive Syntax :=
| SshSyntax      (* git@host:owner/repo *)
| AzureSyntax    (* git@ssh.host:v3/owner/repo *)
| HttpsSyntax    (* https://host/owner/repo *)
| HttpSyntax     (* http://host/owner/repo *)
| BareSyntax.    (* host/owner/repo *)

Record Spelling := {
  syntax : Syntax;
  dotGit : bool;             (* a trailing .git *)
  trailingSlashes : nat      (* the number of slashes after it *)
}.

(** What follows the repository name: [.git] when [g] holds, then [n]
    slashes. *)
Definition spellingTail (g : bool) (n : nat) : jsstring :=
  (if g then js ".git" else []) ++ repeat "/"%char n.

(** What follows the host and its separator. *)
Definition spellingRest (owner repo : jsstring) (g : bool) (n : nat)
  : jsstring :=
  owner ++ js "/" ++ repo ++ spellingTail g n.

Definition spell (v : Spelling) (host owner repo : jsstring) : jsstring :=
  let rest := spellingRest owner repo (dotGit v) (trailingSlashes v) in
  match syntax v with
  | SshSyntax => js "git@" ++ host ++ js ":" ++ rest
  | AzureSyntax => js "git@ssh." ++ host ++ js ":v3/" ++ rest
  | HttpsSyntax => js "https://" ++ host ++ js "/" ++ rest
  | HttpSyntax => js "http://" ++ host ++ js "/" ++ rest
  | BareSyntax => host ++ js "/" ++ rest
  end.

(** A host, owner or repository name: not empty, and free of white space,
    colons and slashes. *)
Definition isPlainName (s : jsstring) : bool :=
  negb (bool_decide (s = []))
  && forallb (fun c => negb (isWhiteSpace c)
                       && negb (bool_decide (c = ":"%char))
                       && negb (bool_decide (c = "/"%char))) s.

(** The characters of such a name. *)
Definition okChar (c : ascii) : Prop :=
  isWhiteSpace c = false /\ c <> ":"%char /\ c <> "/"%char.

(** The spellings on which the normalizer agrees: the two SSH syntaxes take
    no trailing slash, the other ones take slashes or [.git] but not
    slashes after [.git]; the shorthand is the one of [dev.azure.com], and
    what the shorthand pattern claims is not a generic SSH spelling. *)
Definition agreedSpelling (v : Spelling) (host owner : jsstring) : bool :=
  match syntax v with
  | SshSyntax =>
      (trailingSlashes v =? 0)%nat
      && negb (eqb host (js "ssh.dev.azure.com") && eqb owner (js "v3"))
  | AzureSyntax =>
      (trailingSlashes v =? 0)%nat && eqb host (js "dev.azure.com")
  | HttpsSyntax | HttpSyntax | BareSyntax =>
      negb (dotGit v) || (trailingSlashes v =? 0)%nat
  end.

(** A string that no step of the normalizer would rewrite: not empty, no
    white space at either end, no leading [git@], [http://] or [https://],
    no trailing [.git] or slash. *)
Definition isCanonicalForm (y : jsstring) : bool :=
  match head y, last y with
  | Some a, Some c =>
      negb (isWhiteSpace a) && negb (isWhiteSpace c)
      && negb (startsWith (js "git@") y)
      && negb (startsWith (js "http://") y)
      && negb (startsWith (js "https://") y)
      && negb (endsWith (js ".git") y)
      && negb (bool_decide (c = "/"%char))
  | _, _ => false
  end.

(** ** Directory trees, as the scan sees them *)

(** [dir] lists a directory of the given name. *)
Definition listsDir (w : World) (dir entryName : jsstring) : Prop :=
  exists entries,
    readdirSync w dir = Some entries
    /\ {| name := entryName; isDirectory := true |} ∈ entries.

(** The path reached from [dir] by descending through [names]. *)
Definition pathUnder (dir : jsstring) (names : list jsstring) : jsstring :=
  fold_left pathJoin names dir.

(** [descends w dir names]: each name is a directory listed by the path
    before it, and none is a name the scan skips.  The length of [names] is
    the number of descents from [dir]. *)
Inductive descends (w : World) : jsstring -> list jsstring -> Prop :=
| descends_here dir : descends w dir []
| descends_into dir n ns :
    listsDir w dir n -> n ∉ SKIP_DIRS ->
    descends w (pathJoin dir n) ns ->
    descends w dir (n :: ns).

(** The directory at the end of [names] below [dir] is a checkout that the
    scan for [normalizedUrl] accepts: it is reached by descents, its name
    is the repository name up to case, and it holds [.git] and a remote
    that normalizes to the URL. *)
Definition checkoutBelow (w : World) (normalizedUrl repoName dir : jsstring)
    (names : list jsstring) : Prop :=
  descends w dir names
  /\ (exists n, last names = Some n /\ toLowerCase n = repoName)
  /\ isCheckoutOf w normalizedUrl (pathUnder dir names) = true.

(** ** Worlds given by tables, for the examples *)

Definition lookupPath {A} (t : list (jsstring * A)) (p : jsstring) : option A :=
  match find (fun e => eqb (fst e) p) t with
  | Some e => Some (snd e)
  | None => None
  end.

Definition subdir (n : string) : Dirent := {| name := js n; isDirectory := true |}.
Definition file (n : string) : Dirent := {| name := js n; isDirectory := false |}.

(** The world whose directories are the keys of [dirs], whose other paths
    are [others] and where [git remote -v] prints [remotes]; a write of the
    cache file that fails is refused at the open. *)
Definition tableWorld (home : option jsstring)
    (dirs : list (jsstring * list Dirent)) (others : list jsstring)
    (remotes : list (jsstring * jsstring)) (config : option Config)
    (writable : bool) : World :=
  {| HOME := home;
     readdirSync := lookupPath dirs;
     existsSync := fun p => bool_decide (p ∈ map fst dirs ++ others);
     gitRemoteV := lookupPath remotes;
     configFile := config;
     cacheWritable := writable;
     failedWrite := WriteRefused;
     clock := fun _ => js "2026-01-01T00:00:00.000Z" |}.

(** A line of the output of [git remote -v]: name, TAB, URL, kind, LF. *)
Definition remoteLine (url kind : string) : jsstring :=
  js "origin" ++ ["009"%char] ++ js url ++ js " (" ++ js kind ++ js ")"
  ++ ["010"%char].

(** The tree of the test [respects maxDepth]: a checkout of
    [github.com/org/my-repo] at [/scan/a/b/my-repo]. *)
Definition depthWorld : World :=
  tableWorld (Some (js "/home/dev"))
    [ (js "/scan", [subdir "a"; file "notes.txt"]);
      (js "/scan/a", [subdir "b"]);
      (js "/scan/a/b", [subdir "my-repo"]);
      (js "/scan/a/b/my-repo", [subdir ".git"; subdir "src"]);
      (js "/scan/a/b/my-repo/.git", []);
      (js "/scan/a/b/my-repo/src", []) ]
    []
    [ (js "/scan/a/b/my-repo",
       remoteLine "git@github.com:Org/my-repo.git" "fetch"
       ++ remoteLine "git@github.com:Org/my-repo.git" "push") ]
    None true.

(** The tree of the test [skips node_modules and other ignored dirs]:
    a checkout of [github.com/org/my-lib] inside [node_modules], and a
    checkout of [github.com/org/build] whose own name is skipped. *)
Definition skipWorld : World :=
  tableWorld (Some (js "/home/dev"))
    [ (js "/scan", [subdir "node_modules"; subdir "build"]);
      (js "/scan/node_modules", [subdir "my-lib"]);
      (js "/scan/node_modules/my-lib", [subdir ".git"]);
      (js "/scan/node_modules/my-lib/.git", []);
      (js "/scan/build", [subdir ".git"]);
      (js "/scan/build/.git", []) ]
    []
    [ (js "/scan/node_modules/my-lib",
       js "origin git@github.com:Org/my-lib.git (fetch)");
      (js "/scan/build",
       js "origin git@github.com:Org/build.git (fetch)") ]
    None true.

(** The object [loadCache] returns in a state. *)
Definition loadedCache (s : State) : gmap jsstring Entry :=
  match cacheFile s with Some m => m | None => ∅ end.

(** The state after more console output. *)
Definition withConsole (s : State) (lines : list LogLine) : State :=
  {| cacheFile := cacheFile s; console := console s ++ lines; ticks := ticks s |}.

(** A checkout at [/work/odd] whose only remote is the URL [__proto__], an
    empty cache file, and the default configuration. *)
Definition protoWorld : World :=
  tableWorld (Some (js "/home/dev"))
    [ (js "/work", [subdir "odd"]);
      (js "/work/odd", [subdir ".git"]);
      (js "/work/odd/.git", []) ]
    []
    [ (js "/work/odd", js "origin __proto__ (fetch)") ]
    None true.

Definition emptyState : State :=
  {| cacheFile := None; console := []; ticks := 0 |}.

(** The state in which a call left the world, whether it returned or
    threw. *)
Definition finalState {A} (o : Outcome A) : State :=
  match o with Return _ s => s | Throw s => s end.

(** The value a call returned, if it returned. *)
Definition returned {A} (o : Outcome A) : option A :=
  match o with Return a _ => Some a | Throw _ => None end.

(** A cache file with one entry, whose path is not on the disk of
    [depthWorld]. *)
Definition goneEntry : Entry :=
  {| path := js "/tmp/definitely-does-not-exist-xyz";
     lastUsed := js "2025-12-31T00:00:00.000Z" |}.

Definition goneState : State :=
  {| cacheFile := Some {[ js "github.com/gone/gone" := goneEntry ]};
     console := [];
     ticks := 0 |}.

(** The cache file of [goneState] on a disk that refuses to write it (a
    read-only file or directory). *)
Definition readOnlyWorld : World :=
  tableWorld (Some (js "/home/dev")) [] [] [] None false.

(** The tree of [depthWorld] on a disk that runs full while the cache file
    is written: the write throws and leaves an empty file. *)
Definition fullDiskWorld : World :=
  {| HOME := HOME depthWorld;
     readdirSync := readdirSync depthWorld;
     existsSync := existsSync depthWorld;
     gitRemoteV := gitRemoteV depthWorld;
     configFile := None;
     cacheWritable := false;
     failedWrite := WriteCut false;
     clock := clock depthWorld |}.



(** No home directory and no configuration file: the default root [~/dd]
    cannot be expanded. *)
Definition noHomeWorld : World :=
  tableWorld None [] [] [] None true.

(** The tree of [depthWorld] with a configuration that sets the maximum
    depth to 0. *)
Definition zeroDepthWorld : World :=
  {| HOME := HOME depthWorld;
     readdirSync := readdirSync depthWorld;
     existsSync := existsSync depthWorld;
     gitRemoteV := gitRemoteV depthWorld;
     configFile := Some {| GIT_SEARCH_PATHS := Some [js "/scan"];
                           GIT_SEARCH_MAX_DEPTH := DepthNum 0 |};
     cacheWritable := true;
     failedWrite := WriteRefused;
     clock := clock depthWorld |}.

(** ** More of the JavaScript library *)

(** [Array.prototype.join] on strings. *)
Fixpoint joinWith (sep : jsstring) (parts : list jsstring) : jsstring :=
  match parts with
  | [] => []
  | [x] => x
  | x :: rest => x ++ sep ++ joinWith sep rest
  end.

(** A string value that counts as given: defined and not empty. *)
Definition given (v : option jsstring) : option jsstring :=
  match v with Some ((_ :: _) as x) => Some x | _ => None end.

(** ** [src/prompt-builder.js] *)

Module PromptBuilder.

(** The fields of [context] that [buildPrompt] reads; [None] is
    [undefined].  A line number is held as its decimal text. *)
Record Context := {
  message : option jsstring;
  file : option jsstring;
  line : option jsstring
}.

Definition buildPrompt (context : Context) : jsstring :=
  let parts :=
    match given (file context) with
    | Some f =>
        let location :=
          match given (line context) with
          | Some l => f ++ js ":" ++ l
          | None => f
          end in
        [js "Fix this error in " ++ location]
    | None => [js "Fix this error"]
    end in
  let parts :=
    match given (message context) with
    | Some m => parts ++ [js "- " ++ m]
    | None => parts
    end in
  joinWith (js " ") parts.

End PromptBuilder.

(** ** [src/terminal.js] *)

Module Terminal.

(** [process.env.CLAUDE_FIX_TERMINAL || 'Terminal']. *)
Definition TERMINAL (env : option jsstring) : jsstring :=
  match given env with Some t => t | None => js "Terminal" end.

(** The keys of [launchers]. *)
Definition launcherNames : list jsstring :=
  map js [ "Terminal"; "iTerm"; "Kitty"; "Alacritty"; "WezTerm" ]%string.

(** [launchers[TERMINAL]]: a launcher of [launchers], a member of
    [Object.prototype], or [undefined]. *)
Inductive Launcher := OwnLauncher (t : jsstring) | InheritedMember | NoLauncher.

Definition launcherFor (t : jsstring) : Launcher :=
  if bool_decide (t ∈ launcherNames) then OwnLauncher t
  else if bool_decide (t ∈ objectPrototypeKeys) then InheritedMember
  else NoLauncher.

(** [Buffer.from(s)]: the UTF-8 bytes of a string of Latin-1 code units. *)
Definition utf8 (s : jsstring) : list ascii :=
  flat_map (fun c =>
              let n := code c in
              if (n <? 128)%nat then [c]
              else [ascii_of_nat (192 + n / 64); ascii_of_nat (128 + n mod 64)])
           s.

Definition base64Alphabet : jsstring :=
  js "ABCDEFGHIJKLMNOPQRSTUVWXYZabcdefghijklmnopqrstuvwxyz0123456789+/".

Definition base64Char (i : nat) : ascii := nth i base64Alphabet "="%char.

(** [buf.toString('base64')]: three bytes give four characters, and the
    last group is padded with [=]. *)
Fixpoint base64 (bytes : list ascii) : jsstring :=
  match bytes with
  | [] => []
  | [a] =>
      let a := code a in
      [base64Char (a / 4); base64Char (a mod 4 * 16); "="%char; "="%char]
  | [a; b] =>
      let a := code a in let b := code b in
      [base64Char (a / 4); base64Char (a mod 4 * 16 + b / 16);
       base64Char (b mod 16 * 4); "="%char]
  | a :: b :: c :: rest =>
      let a := code a in let b := code b in let c := code c in
      base64Char (a / 4) :: base64Char (a mod 4 * 16 + b / 16)
      :: base64Char (b mod 16 * 4 + c / 64) :: base64Char (c mod 64)
      :: base64 rest
  end.




Definition appPaths : list (jsstring * jsstring) :=
  [ (js "iTerm", js "/Applications/iTerm.app");
    (js "Kitty", js "/Applications/kitty.app");
    (js "Alacritty", js "/Applications/Alacritty.app");
    (js "WezTerm", js "/Applications/WezTerm.app") ].

(** [isTerminalAvailable()], for the value of [process.platform], the
    terminal name and the paths on which [fs.accessSync] returns.  A name
    that [appPaths] does not own gives [undefined] or a member of
    [Object.prototype], on which [accessSync] throws. *)
Definition isTerminalAvailable (platform terminal : jsstring)
    (accessSync : jsstring -> bool) : bool :=
  if negb (eqb platform (js "darwin")) then false
  else if eqb terminal (js "Terminal") then true
  else match lookupPath appPaths terminal with
       | Some appPath => accessSync appPath
       | None => false
       end.

End Terminal.

(** ** [src/server.js] *)

Module Server.

(** What the daemon reads from its process and its surroundings.
    - [envTerminal], [envApiKey], [envAppKey] are the environment variables
      [CLAUDE_FIX_TERMINAL], [DD_API_KEY], [DD_APP_KEY]; [configApiKey] and
      [configAppKey] are the two keys of the parsed configuration.
    - [accessSync p] tells whether [fs.accessSync(p)] returns.
    - [datadogExchange data] is what the HTTPS exchange with Datadog and the
      reading of its answer settle with: the prompt as text, or the message
      of the error.
    - [pid] and [uptime] are [process.pid] and [process.uptime()]. *)
Record Daemon := {
  envTerminal : option jsstring;
  platform : jsstring;
  accessSync : jsstring -> bool;
  envApiKey : option jsstring;
  envAppKey : option jsstring;
  configApiKey : option jsstring;
  configAppKey : option jsstring;
  datadogExchange : jsstring -> jsstring + jsstring;
  pid : nat;
  uptime : jsstring
}.

(** [process.env.K || config.K || '']. *)
Definition keyOf (env config : option jsstring) : jsstring :=
  match given env with
  | Some k => k
  | None => match given config with Some k => k | None => [] end
  end.

Definition DD_API_KEY (d : Daemon) : jsstring := keyOf (envApiKey d) (configApiKey d).
Definition DD_APP_KEY (d : Daemon) : jsstring := keyOf (envAppKey d) (configAppKey d).

Definition getTerminalName (d : Daemon) : jsstring := Terminal.TERMINAL (envTerminal d).

(** [fetchDatadogPrompt]: [inl] is the prompt the promise resolves with,
    [inr] the message of the error it rejects with. *)
Definition fetchDatadogPrompt (d : Daemon) (encodedData : jsstring)
  : jsstring + jsstring :=
  match DD_API_KEY d, DD_APP_KEY d with
  | _ :: _, _ :: _ => datadogExchange d encodedData
  | _, _ =>
      inr (js "DD_API_KEY and DD_APP_KEY required (set in env or ~/.claude-fix/config.json)")
  end.

(** The body of a response, before [JSON.stringify]. *)
Inductive Body :=
| NoBody
| ErrorBody (error : jsstring)
| SpawningBody (terminal prompt : jsstring)
| HealthBody (terminal datadog platform : jsstring) (pid : nat) (uptime : jsstring).

Record Response := {
  statusCode : nat;
  headers : list (jsstring * jsstring);
  body : Body
}.

Definition corsHeaders : list (jsstring * jsstring) :=
  [ (js "Access-Control-Allow-Origin", js "*");
    (js "Access-Control-Allow-Methods", js "GET, OPTIONS");
    (js "Access-Control-Allow-Headers", js "Content-Type") ].

Definition sendJson (statusCode : nat) (data : Body) : Response :=
  {| statusCode := statusCode;
     headers := (js "Content-Type", js "application/json") :: corsHeaders;
     body := data |}.

Definition LF : ascii := "010"%char.

(** The meta-prompt that wraps the recommendation. *)
Definition metaPrompt (datadogPrompt : jsstring) : jsstring :=
  js "I received the following recommendation from Datadog APM:" ++ [LF; LF]
  ++ js "---" ++ [LF] ++ datadogPrompt ++ [LF] ++ js "---" ++ [LF; LF]
  ++ js "IMPORTANT: Do NOT take any action yet. Do NOT use any tools. Do NOT analyze or investigate anything. Simply acknowledge that you received this recommendation and ask me if I want to proceed. Wait for my explicit approval before doing anything.".

(** [prompt.substring(0, 200) + (prompt.length > 200 ? '...' : '')]. *)
Definition preview (prompt : jsstring) : jsstring :=
  firstn 200 prompt ++ (if (200 <? length prompt)%nat then js "..." else []).

(** [handleFix], for the value of the query parameter [data]: the response
    it sends and the prompt with which it schedules [spawnTerminal], if it
    does. *)
Definition handleFix (d : Daemon) (data : option jsstring)
  : Response * option jsstring :=
  match given data with
  | None => (sendJson 400 (ErrorBody (js "Missing data query parameter")), None)
  | Some data =>
      match fetchDatadogPrompt d data with
      | inl datadogPrompt =>
          let prompt := metaPrompt datadogPrompt in
          (sendJson 200 (SpawningBody (getTerminalName d) (preview prompt)),
           Some prompt)
      | inr message => (sendJson 500 (ErrorBody message), None)
      end
  end.

Definition handleHealth (d : Daemon) : Response :=
  sendJson 200
    (HealthBody
       (if Terminal.isTerminalAvailable (platform d) (getTerminalName d)
             (accessSync d)
        then getTerminalName d else js "unavailable")
       (match DD_API_KEY d, DD_APP_KEY d with
        | _ :: _, _ :: _ => js "configured"
        | _, _ => js "not configured"
        end)
       (platform d) (pid d) (uptime d)).

(** [requestHandler] from its second statement on, once the URL of the
    request is parsed: for the method of the request and the path and the
    [data] parameter of that URL. *)
Definition requestHandler (d : Daemon) (method pathname : jsstring)
    (data : option jsstring) : Response * option jsstring :=
  if eqb method (js "OPTIONS") then
    ({| statusCode := 204; headers := corsHeaders; body := NoBody |}, None)
  else if eqb pathname (js "/dd/claude-fix") && eqb method (js "GET") then
    handleFix d data
  else if eqb pathname (js "/dd/health") && eqb method (js "GET") then
    (handleHealth d, None)
  else (sendJson 404 (ErrorBody (js "Not found")), None).

(** The whole of [requestHandler].  Its first statement is
    [new URL(req.url, `http://${req.headers.host}`)], outside any [try]:
    [url] is the path and the [data] parameter of the URL it gives, or
    [None] when it throws (a request target such as [//], a [Host] header
    that is no host).  Then the promise of the handler rejects before the
    method is looked at, and nothing is answered. *)
Definition handleRequest (d : Daemon) (method : jsstring)
    (url : option (jsstring * option jsstring))
  : option (Response * option jsstring) :=
  match url with
  | Some (pathname, data) => Some (requestHandler d method pathname data)
  | None => None
  end.

End Server.

(** A daemon with both keys in its environment, whose exchange with
    Datadog answers every request with the same recommendation, and one
    without keys. *)
Definition keyedDaemon : Server.Daemon :=
  {| Server.envTerminal := None;
     Server.platform := js "darwin";
     Server.accessSync := fun _ => false;
     Server.envApiKey := Some (js "api-key");
     Server.envAppKey := Some (js "app-key");
     Server.configApiKey := None;
     Server.configAppKey := None;
     Server.datadogExchange := fun _ => inl (js "Restart the worker pool.");
     Server.pid := 4242;
     Server.uptime := js "12.5" |}.

Definition keylessDaemon : Server.Daemon :=
  {| Server.envTerminal := Some (js "Kitty");
     Server.platform := js "linux";
     Server.accessSync := fun _ => true;
     Server.envApiKey := Some (js "api-key");
     Server.envAppKey := None;
     Server.configApiKey := None;
     Server.configAppKey := Some [];
     Server.datadogExchange := fun _ => inl (js "Restart the worker pool.");
     Server.pid := 4242;
     Server.uptime := js "12.5" |}.

(** The message with which [fetchDatadogPrompt] rejects without keys. *)
Definition keysRequired : jsstring :=
  js "DD_API_KEY and DD_APP_KEY required (set in env or ~/.claude-fix/config.json)".

Section StringFacts.

Lemma lowerChar_idem c : lowerChar (lowerChar c) = lowerChar c.
Proof. destruct c as [[] [] [] [] [] [] [] []]; vm_compute; reflexivity. Qed.

Lemma toLowerCase_idem s : toLowerCase (toLowerCase s) = toLowerCase s.
Proof.
  unfold toLowerCase. rewrite map_map. apply map_ext. intros; apply lowerChar_idem.
Qed.

Lemma stripPrefix_app p s : stripPrefix p (p ++ s) = Some s.
Proof.
  induction p as [|a p IH]; simpl; [destruct s; reflexivity|].
  rewrite bool_decide_true by reflexivity. exact IH.
Qed.

Lemma stripPrefix_Some p s r : stripPrefix p s = Some r -> s = p ++ r.
Proof.
  revert s. induction p as [|a p IH]; intros s H.
  - destruct s; simpl in *; congruence.
  - destruct s as [|b s]; simpl in H; [discriminate|].
    case_bool_decide; [|discriminate]. subst. simpl. f_equal. auto.
Qed.

Lemma stripSuffix_app p s : stripSuffix p (s ++ p) = Some s.
Proof.
  unfold stripSuffix. rewrite rev_app_distr, stripPrefix_app, rev_involutive.
  reflexivity.
Qed.

Lemma stripSuffix_Some p s r : stripSuffix p s = Some r -> s = r ++ p.
Proof.
  unfold stripSuffix. destruct (stripPrefix (rev p) (rev s)) eqn:E; [|discriminate].
  intros [= <-]. apply stripPrefix_Some in E.
  rewrite <- (rev_involutive s), E, rev_app_distr, rev_involutive. reflexivity.
Qed.

Lemma takeWhile_stop p a c b :
  Forall (fun x => p x = true) a -> p c = false ->
  takeWhile p (a ++ c :: b) = a /\ dropWhile p (a ++ c :: b) = c :: b.
Proof.
  intros Ha Hc. induction Ha as [|x a Hx _ IH]; simpl.
  - rewrite Hc. auto.
  - rewrite Hx. destruct IH as [-> ->]. auto.
Qed.

Lemma takeWhile_all p a :
  Forall (fun x => p x = true) a -> takeWhile p a = a /\ dropWhile p a = [].
Proof.
  induction 1 as [|x a Hx _ [IH1 IH2]]; simpl; [auto|].
  rewrite Hx, IH1, IH2. auto.
Qed.

Lemma dropWhileEnd_snoc p s c :
  dropWhileEnd p (s ++ [c]) = if p c then dropWhileEnd p s else s ++ [c].
Proof.
  unfold dropWhileEnd. rewrite rev_app_distr. simpl.
  destruct (p c); [reflexivity|]. simpl. rewrite rev_involutive. reflexivity.
Qed.

Lemma last_snoc_inv (s : jsstring) c : last s = Some c -> exists s', s = s' ++ [c].
Proof.
  intros H. destruct (exists_last (l:=s)) as [s' [c' ->]].
  - intros ->. discriminate.
  - rewrite last_snoc in H. injection H as ->. eauto.
Qed.

Lemma trim_id s a c :
  head s = Some a -> isWhiteSpace a = false ->
  last s = Some c -> isWhiteSpace c = false ->
  trim s = s.
Proof.
  intros Hh Ha Hl Hc. unfold trim.
  destruct s as [|x s]; [discriminate|]. simpl in Hh. injection Hh as ->.
  simpl. rewrite Ha.
  apply last_snoc_inv in Hl as [s' E]. rewrite E, dropWhileEnd_snoc, Hc. reflexivity.
Qed.

End StringFacts.

Section SshForm.

Lemma dotPlus_all p :
  p <> [] -> Forall (fun c => isLineTerminator c = false) p -> dotPlus p = Some p.
Proof.
  intros Hne Hp. unfold dotPlus.
  destruct (takeWhile_all (fun c => negb (isLineTerminator c)) p) as [-> _].
  - eapply Forall_impl; [exact Hp|]. simpl. intros c ->. reflexivity.
  - destruct p; [contradiction|reflexivity].
Qed.

Lemma sshMatch_form host p :
  host <> [] -> Forall (fun c => c <> ":"%char) host ->
  p <> [] -> Forall (fun c => isLineTerminator c = false) p ->
  sshMatch (js "git@" ++ host ++ js ":" ++ p) = Some (host, p).
Proof.
  intros Hh Hc Hp Hl. unfold sshMatch.
  rewrite stripPrefix_app.
  destruct (takeWhile_stop (fun c => negb (bool_decide (c = ":"%char)))
              host ":"%char p) as [E1 E2].
  - eapply Forall_impl; [exact Hc|]. simpl. intros c Hcc.
    rewrite bool_decide_false by exact Hcc. reflexivity.
  - reflexivity.
  - change (js ":" ++ p) with (":"%char :: p). cbv zeta. rewrite E1, E2.
    destruct host; [contradiction|]. rewrite dotPlus_all by assumption.
    reflexivity.
Qed.

Lemma normalize_ssh_form host p c :
  host <> [] -> Forall (fun x => x <> ":"%char) host ->
  Forall (fun x => isLineTerminator x = false) p ->
  last p = Some c -> isWhiteSpace c = false ->
  azureMatch (js "git@" ++ host ++ js ":" ++ p) = None ->
  normalizeRepoUrl (js "git@" ++ host ++ js ":" ++ p)
  = Some (stripDotGit (toLowerCase (host ++ js "/" ++ p))).
Proof.
  intros Hh Hc Hl Hlast Hws Haz.
  assert (Hp : p <> []) by (intros ->; discriminate).
  set (u := js "git@" ++ host ++ js ":" ++ p) in *.
  assert (Ht : trim u = u).
  { apply (trim_id u "g"%char c); try reflexivity; try assumption.
    unfold u. rewrite !app_assoc, last_app, Hlast. reflexivity. }
  unfold normalizeRepoUrl.
  destruct u as [|x u'] eqn:Eu; [discriminate|].
  rewrite Ht, Haz. rewrite <- Eu. unfold u. rewrite sshMatch_form by assumption.
  reflexivity.
Qed.

End SshForm.

Section Spellings.

Lemma toLowerCase_app a b : toLowerCase (a ++ b) = toLowerCase a ++ toLowerCase b.
Proof. apply map_app. Qed.

Lemma stripPrefix_sep_None p r c a :
  c ∉ p -> stripPrefix p r = None -> stripPrefix p (r ++ c :: a) = None.
Proof.
  revert r. induction p as [|x p IH]; intros r Hc H.
  - destruct r; discriminate.
  - apply not_elem_of_cons in Hc as [Hx Hp].
    destruct r as [|y r]; simpl in *.
    + rewrite bool_decide_false by congruence. reflexivity.
    + case_bool_decide; [auto|reflexivity].
Qed.

Lemma endsWith_sep p a c r :
  c ∉ p -> endsWith p r = false -> endsWith p (a ++ c :: r) = false.
Proof.
  unfold endsWith, stripSuffix. intros Hc H.
  replace (rev (a ++ c :: r)) with (rev r ++ c :: rev a)
    by (rewrite rev_app_distr; simpl; rewrite <- app_assoc; reflexivity).
  rewrite stripPrefix_sep_None; [reflexivity| |].
  - intros Hin. apply Hc. apply list_elem_of_In. apply in_rev.
    apply list_elem_of_In. exact Hin.
  - destruct (stripPrefix (rev p) (rev r)); [discriminate|reflexivity].
Qed.

Lemma stripDotGit_keep s : endsWith (js ".git") s = false -> stripDotGit s = s.
Proof.
  unfold endsWith, stripDotGit. destruct (stripSuffix (js ".git") s); [discriminate|reflexivity].
Qed.

Lemma stripDotGit_app s : stripDotGit (s ++ js ".git") = s.
Proof. unfold stripDotGit. rewrite stripSuffix_app. reflexivity. Qed.

Lemma endsWith_lower_git r :
  endsWith (js ".git") (toLowerCase r) = false -> endsWith (js ".git") r = false.
Proof.
  intros H. unfold endsWith in *.
  destruct (stripSuffix (js ".git") r) eqn:E; [|reflexivity].
  apply stripSuffix_Some in E. subst r.
  rewrite toLowerCase_app in H.
  change (toLowerCase (js ".git")) with (js ".git") in H.
  rewrite stripSuffix_app in H. discriminate.
Qed.

Lemma dropWhileEnd_repeat p s c n :
  p c = true -> dropWhileEnd p (s ++ repeat c n) = dropWhileEnd p s.
Proof.
  intros Hc. induction n as [|n IH]; simpl; [rewrite app_nil_r; reflexivity|].
  rewrite repeat_cons, app_assoc, dropWhileEnd_snoc, Hc. exact IH.
Qed.

End Spellings.

Section CrossSyntax.

Lemma isPlainName_spec s :
  isPlainName s = true -> s <> [] /\ Forall okChar s.
Proof.
  unfold isPlainName. rewrite andb_true_iff, negb_true_iff, forallb_forall.
  intros [Hne Hall]. split.
  - intros ->. discriminate.
  - apply Forall_forall. intros c Hc. apply list_elem_of_In in Hc.
    specialize (Hall c Hc). rewrite !andb_true_iff, !negb_true_iff in Hall.
    destruct Hall as [[H1 H2] H3]. repeat split; [exact H1| |].
    + intros ->. discriminate.
    + intros ->. discriminate.
Qed.

Lemma okChar_last s : s <> [] -> Forall okChar s -> exists c, last s = Some c /\ okChar c.
Proof.
  intros Hne Hall. destruct (exists_last Hne) as [s' [c ->]].
  exists c. rewrite last_snoc. split; [reflexivity|].
  apply Forall_app in Hall as [_ Hc]. inversion Hc; assumption.
Qed.

Lemma okChar_head s : s <> [] -> Forall okChar s -> exists c, head s = Some c /\ okChar c.
Proof.
  intros Hne Hall. destruct s as [|c s]; [contradiction|].
  exists c. split; [reflexivity|]. inversion Hall; assumption.
Qed.

(** The third form of [normalizeRepoUrl], for an input that needs no
    trimming and matches neither SSH pattern. *)
Lemma normalize_plain u :
  u <> [] -> trim u = u -> azureMatch u = None -> sshMatch u = None ->
  normalizeRepoUrl u
  = Some (toLowerCase (stripSlashes (stripDotGit (stripScheme u)))).
Proof.
  intros Hne Ht Ha Hs. unfold normalizeRepoUrl.
  destruct u; [contradiction|]. rewrite Ht, Ha, Hs. reflexivity.
Qed.

Lemma stripPrefix_no_colon p u :
  ":"%char ∈ p -> Forall (fun c => c <> ":"%char) u -> stripPrefix p u = None.
Proof.
  intros Hp Hu. destruct (stripPrefix p u) eqn:E; [|reflexivity].
  apply stripPrefix_Some in E. subst u. apply Forall_app in Hu as [Hu _].
  rewrite Forall_forall in Hu. exfalso. exact (Hu _ Hp eq_refl).
Qed.

Lemma sshMatch_no_colon u :
  Forall (fun c => c <> ":"%char) u -> sshMatch u = None.
Proof.
  intros Hu. unfold sshMatch.
  destruct (stripPrefix (js "git@") u) eqn:E; [|reflexivity].
  apply stripPrefix_Some in E. subst u. apply Forall_app in Hu as [_ Hu].
  destruct (takeWhile_all (fun c => negb (bool_decide (c = ":"%char))) l) as [E1 E2].
  - eapply Forall_impl; [exact Hu|]. simpl. intros c Hc.
    rewrite bool_decide_false by exact Hc. reflexivity.
  - cbv zeta. rewrite E1, E2. destruct l; reflexivity.
Qed.

Lemma azureMatch_no_colon u :
  Forall (fun c => c <> ":"%char) u -> azureMatch u = None.
Proof.
  intros Hu. unfold azureMatch. rewrite stripPrefix_no_colon; [reflexivity| |exact Hu].
  vm_compute. repeat (try (left; reflexivity); right).
Qed.

Lemma stripScheme_no_colon u :
  Forall (fun c => c <> ":"%char) u -> stripScheme u = u.
Proof.
  intros Hu. unfold stripScheme.
  rewrite !stripPrefix_no_colon; try exact Hu; try reflexivity.
  - vm_compute. repeat (try (left; reflexivity); right).
  - vm_compute. repeat (try (left; reflexivity); right).
Qed.

End CrossSyntax.

Section CrossSyntaxForms.

Lemma white_of_terminator c : isWhiteSpace c = false -> isLineTerminator c = false.
Proof.
  destruct c as [[] [] [] [] [] [] [] []]; vm_compute; congruence.
Qed.

Lemma app_sep_inj (c : ascii) a b a' b' :
  c ∉ a -> c ∉ a' -> a ++ c :: b = a' ++ c :: b' -> a = a' /\ b = b'.
Proof.
  revert a'. induction a as [|x a IH]; intros [|y a'] Ha Ha' E; simpl in E.
  - injection E as ->. auto.
  - injection E as -> _. exfalso. apply Ha'. left.
  - injection E as -> _. exfalso. apply Ha. left.
  - injection E as -> E. apply not_elem_of_cons in Ha as [_ Ha].
    apply not_elem_of_cons in Ha' as [_ Ha'].
    destruct (IH _ Ha Ha' E) as [-> ->]. auto.
Qed.

Lemma stripSlashes_keep s c :
  last s = Some c -> c <> "/"%char -> stripSlashes s = s.
Proof.
  intros Hl Hc. apply last_snoc_inv in Hl as [s' ->].
  unfold stripSlashes. rewrite dropWhileEnd_snoc.
  rewrite bool_decide_false by exact Hc. reflexivity.
Qed.

(** What is left of [base], [.git] and slashes after the two trailing
    replacements. *)
Lemma strip_tail base c (g : bool) n :
  last base = Some c -> c <> "/"%char ->
  endsWith (js ".git") base = false ->
  negb g || (n =? 0)%nat = true ->
  stripSlashes (stripDotGit
     (base ++ (if g then js ".git" else []) ++ repeat "/"%char n)) = base.
Proof.
  intros Hl Hc He Hv. destruct g; simpl in Hv.
  - apply Nat.eqb_eq in Hv. subst n. simpl repeat. rewrite app_nil_r.
    rewrite stripDotGit_app. eapply stripSlashes_keep; eassumption.
  - simpl app. rewrite stripDotGit_keep.
    + unfold stripSlashes. rewrite dropWhileEnd_repeat by reflexivity.
      eapply stripSlashes_keep; eassumption.
    + destruct n as [|n]; [simpl; rewrite app_nil_r; exact He|].
      simpl repeat. rewrite repeat_cons, app_assoc. apply endsWith_sep; [|reflexivity].
      vm_compute. intros H. repeat (inversion H as [|? ? ? H']; subst; clear H; rename H' into H).
Qed.

End CrossSyntaxForms.

Section CrossSyntaxMain.

Variables host owner repo : jsstring.
Hypothesis Hhost : isPlainName host = true.
Hypothesis Howner : isPlainName owner = true.
Hypothesis Hrepo : isPlainName repo = true.
Hypothesis Hgit : endsWith (js ".git") (toLowerCase repo) = false.

Let base := host ++ js "/" ++ owner ++ js "/" ++ repo.

Lemma okChar_colon s : Forall okChar s -> Forall (fun c => c <> ":"%char) s.
Proof. intros Hs. eapply Forall_impl; [exact Hs|]. intros c (_ & H & _). exact H. Qed.

Lemma okChar_terminator s :
  Forall okChar s -> Forall (fun c => isLineTerminator c = false) s.
Proof.
  intros Hs. eapply Forall_impl; [exact Hs|].
  intros c (H & _ & _). apply white_of_terminator, H.
Qed.

Lemma okChar_slash s : Forall okChar s -> "/"%char ∉ s.
Proof.
  intros H Hin. rewrite Forall_forall in H. destruct (H _ Hin) as (_ & _ & Hs).
  congruence.
Qed.

Lemma base_colon : Forall (fun c => c <> ":"%char) base.
Proof.
  destruct (isPlainName_spec _ Hhost) as [_ H1].
  destruct (isPlainName_spec _ Howner) as [_ H2].
  destruct (isPlainName_spec _ Hrepo) as [_ H3].
  unfold base. repeat (apply Forall_app; split); try (apply okChar_colon; assumption);
    repeat constructor; discriminate.
Qed.

Lemma base_last : exists c, last base = Some c /\ okChar c.
Proof.
  destruct (isPlainName_spec _ Hrepo) as [Hne H3].
  destruct (okChar_last _ Hne H3) as [c [Hl Hc]]. exists c. split; [|exact Hc].
  unfold base. rewrite !app_assoc, last_app, Hl. reflexivity.
Qed.

Lemma base_head : exists c, head base = Some c /\ okChar c.
Proof.
  destruct (isPlainName_spec _ Hhost) as [Hne H1].
  destruct (okChar_head _ Hne H1) as [c [Hh Hc]]. exists c. split; [|exact Hc].
  unfold base. destruct host; [contradiction|exact Hh].
Qed.

Lemma base_git : endsWith (js ".git") base = false.
Proof.
  replace base with ((host ++ js "/" ++ owner) ++ "/"%char :: repo)
    by (unfold base; rewrite <- !app_assoc; reflexivity).
  apply endsWith_sep.
  - vm_compute. intros H.
    repeat (inversion H as [|? ? ? H']; subst; clear H; rename H' into H).
  - apply endsWith_lower_git, Hgit.
Qed.

Lemma base_lower_git : endsWith (js ".git") (toLowerCase base) = false.
Proof.
  replace base with ((host ++ js "/" ++ owner) ++ "/"%char :: repo)
    by (unfold base; rewrite <- !app_assoc; reflexivity).
  rewrite toLowerCase_app.
  change (toLowerCase ("/"%char :: repo)) with ("/"%char :: toLowerCase repo).
  apply endsWith_sep.
  - vm_compute. intros H.
    repeat (inversion H as [|? ? ? H']; subst; clear H; rename H' into H).
  - exact Hgit.
Qed.



Lemma tail_last pre g n :
  exists c, last (pre ++ base ++ spellingTail g n) = Some c /\ isWhiteSpace c = false.
Proof.
  unfold spellingTail. destruct n as [|n].
  - destruct g; simpl repeat; rewrite ?app_nil_r.
    + exists "t"%char. split; [|reflexivity].
      rewrite !app_assoc, last_app. reflexivity.
    + destruct base_last as [c [Hl (Hc & _)]]. exists c. split; [|exact Hc].
      rewrite last_app, Hl. reflexivity.
  - exists "/"%char. split; [|reflexivity].
    simpl repeat. rewrite repeat_cons, !app_assoc, last_app. reflexivity.
Qed.

Lemma tail_colon g n : Forall (fun c => c <> ":"%char) (base ++ spellingTail g n).
Proof.
  unfold spellingTail. apply Forall_app; split; [|apply Forall_app; split].
  - apply base_colon.
  - destruct g; repeat constructor; discriminate.
  - apply Forall_forall. intros c Hc. apply list_elem_of_In, repeat_spec in Hc.
    subst c. discriminate.
Qed.

Lemma normalize_core u g n :
  (exists a, head u = Some a /\ isWhiteSpace a = false) ->
  (exists c, last u = Some c /\ isWhiteSpace c = false) ->
  azureMatch u = None -> sshMatch u = None ->
  stripScheme u = base ++ spellingTail g n ->
  negb g || (n =? 0)%nat = true ->
  normalizeRepoUrl u = Some (toLowerCase base).
Proof.
  intros (a & Hh & Ha) (c & Hl & Hc) Haz Hssh Hsch Hv.
  rewrite normalize_plain; try assumption.
  - rewrite Hsch. unfold spellingTail. destruct base_last as [d [Hd (_ & _ & Hs)]].
    erewrite strip_tail; eauto using base_git.
  - intros ->. discriminate.
  - eapply trim_id; eassumption.
Qed.

Lemma normalize_bare g n :
  negb g || (n =? 0)%nat = true ->
  normalizeRepoUrl (base ++ spellingTail g n) = Some (toLowerCase base).
Proof.
  intros Hv. apply (normalize_core _ g n); try exact Hv.
  - destruct base_head as [a [Hh (Ha & _)]]. exists a. split; [|exact Ha].
    destruct base; [discriminate|exact Hh].
  - apply (tail_last []).
  - apply azureMatch_no_colon, tail_colon.
  - apply sshMatch_no_colon, tail_colon.
  - apply stripScheme_no_colon, tail_colon.
Qed.

Lemma normalize_https g n :
  negb g || (n =? 0)%nat = true ->
  normalizeRepoUrl (js "https://" ++ base ++ spellingTail g n) = Some (toLowerCase base).
Proof.
  intros Hv. apply (normalize_core _ g n); try exact Hv; try reflexivity.
  - exists "h"%char. split; reflexivity.
  - apply tail_last.
Qed.

Lemma normalize_http g n :
  negb g || (n =? 0)%nat = true ->
  normalizeRepoUrl (js "http://" ++ base ++ spellingTail g n) = Some (toLowerCase base).
Proof.
  intros Hv. apply (normalize_core _ g n); try exact Hv; try reflexivity.
  - exists "h"%char. split; reflexivity.
  - apply tail_last.
Qed.


Local Abbreviation rest g := (spellingRest owner repo g 0).

Lemma rest_base g : host ++ js "/" ++ rest g = base ++ spellingTail g 0.
Proof. unfold spellingRest, base. rewrite <- !app_assoc. reflexivity. Qed.

Lemma rest_terminator g : Forall (fun c => isLineTerminator c = false) (rest g).
Proof.
  destruct (isPlainName_spec _ Howner) as [_ H2].
  destruct (isPlainName_spec _ Hrepo) as [_ H3].
  unfold spellingRest, spellingTail. apply Forall_app; split; [apply okChar_terminator, H2|].
  apply Forall_app; split; [repeat constructor|].
  apply Forall_app; split; [apply okChar_terminator, H3|].
  destruct g; repeat constructor.
Qed.

Lemma rest_last g :
  exists c, last (rest g) = Some c /\ isWhiteSpace c = false.
Proof.
  destruct (tail_last [] g 0) as [c [Hl Hc]]. exists c. split; [|exact Hc].
  simpl app in Hl. rewrite <- rest_base in Hl.
  rewrite last_app in Hl. change (js "/" ++ rest g) with ("/"%char :: rest g) in Hl.
  destruct (rest g) as [|x r] eqn:E.
  - unfold spellingRest in E. destruct owner; [|discriminate].
    destruct (isPlainName_spec _ Howner) as [Hne _]. contradiction.
  - rewrite last_cons in Hl. destruct (last (x :: r)) eqn:E2; [exact Hl|].
    apply last_None in E2. discriminate.
Qed.

Lemma lower_tail g : stripDotGit (toLowerCase (base ++ spellingTail g 0)) = toLowerCase base.
Proof.
  unfold spellingTail. simpl repeat. rewrite app_nil_r. destruct g.
  - rewrite toLowerCase_app. change (toLowerCase (js ".git")) with (js ".git").
    apply stripDotGit_app.
  - rewrite app_nil_r. apply stripDotGit_keep, base_lower_git.
Qed.

Lemma normalize_ssh_spelling g :
  negb (eqb host (js "ssh.dev.azure.com") && eqb owner (js "v3")) = true ->
  normalizeRepoUrl (js "git@" ++ host ++ js ":" ++ rest g)
  = Some (toLowerCase base).
Proof.
  intros Hno.
  destruct (isPlainName_spec _ Hhost) as [Hne H1].
  destruct (isPlainName_spec _ Howner) as [_ H2].
  destruct (rest_last g) as [c [Hl Hc]].
  rewrite (normalize_ssh_form host (rest g) c); auto using okChar_colon, rest_terminator.
  - rewrite rest_base, lower_tail. reflexivity.
  - unfold azureMatch.
    destruct (stripPrefix (js "git@ssh.dev.azure.com:v3/")
                (js "git@" ++ host ++ js ":" ++ rest g)) eqn:E; [|reflexivity].
    exfalso. apply stripPrefix_Some in E.
    change (js "git@ssh.dev.azure.com:v3/" ++ l)
      with (js "git@" ++ js "ssh.dev.azure.com" ++ ":"%char :: js "v3" ++ "/"%char :: l) in E.
    apply app_inv_head in E. unfold spellingRest in E.
    change (js ":" ++ owner ++ js "/" ++ repo ++ spellingTail g 0)
      with (":"%char :: owner ++ "/"%char :: repo ++ spellingTail g 0) in E.
    apply app_sep_inj in E as [E1 E2].
    + apply app_sep_inj in E2 as [E2 _].
      * rewrite E1, E2 in Hno. discriminate.
      * apply okChar_slash, H2.
      * vm_compute. intros H.
        repeat (inversion H as [|? ? ? H']; subst; clear H; rename H' into H).
    + intros Hin. apply okChar_colon in H1. rewrite Forall_forall in H1.
      exact (H1 _ Hin eq_refl).
    + vm_compute. intros H.
      repeat (inversion H as [|? ? ? H']; subst; clear H; rename H' into H).
Qed.

Lemma normalize_azure_spelling g :
  host = js "dev.azure.com" ->
  normalizeRepoUrl (js "git@ssh." ++ host ++ js ":v3/" ++ rest g)
  = Some (toLowerCase base).
Proof.
  intros Eh.
  destruct (rest_last g) as [c [Hl Hc]].
  set (u := js "git@ssh." ++ host ++ js ":v3/" ++ rest g).
  assert (Eu : u = js "git@ssh.dev.azure.com:v3/" ++ rest g)
    by (unfold u; rewrite Eh; reflexivity).
  assert (Ht : trim u = u).
  { apply (trim_id u "g"%char c); try reflexivity; try assumption.
    unfold u. rewrite !app_assoc, last_app, Hl. reflexivity. }
  assert (Haz : azureMatch u = Some (rest g)).
  { rewrite Eu. unfold azureMatch. rewrite stripPrefix_app.
    apply dotPlus_all; [|apply rest_terminator].
    intros E. rewrite E in Hl. discriminate. }
  unfold normalizeRepoUrl. destruct u as [|x u'] eqn:Ex; [discriminate|].
  rewrite Ht, Haz. f_equal.
  rewrite <- lower_tail with (g := g), <- rest_base, Eh. reflexivity.
Qed.

End CrossSyntaxMain.

Section NormalForm.

Lemma stripDotGit_lower z : toLowerCase z = z -> toLowerCase (stripDotGit z) = stripDotGit z.
Proof.
  intros Hz. unfold stripDotGit. destruct (stripSuffix (js ".git") z) eqn:E; [|exact Hz].
  apply stripSuffix_Some in E. subst z. rewrite toLowerCase_app in Hz.
  apply app_inj_1 in Hz as [Hz _]; [exact Hz|]. unfold toLowerCase. apply length_map.
Qed.

(** Every result of the normalizer is in lower case. *)
Lemma normalize_lowercase x y :
  normalizeRepoUrl x = Some y -> toLowerCase y = y.
Proof.
  unfold normalizeRepoUrl. destruct x as [|c x]; [discriminate|].
  destruct (azureMatch _) as [r|].
  - intros [= <-]. apply stripDotGit_lower.
    exact (toLowerCase_idem (js "dev.azure.com/" ++ r)).
  - destruct (sshMatch _) as [[h p]|].
    + intros [= <-]. apply stripDotGit_lower.
      exact (toLowerCase_idem (h ++ js "/" ++ p)).
    + intros [= <-]. apply toLowerCase_idem.
Qed.

Lemma startsWith_false p s : startsWith p s = false -> stripPrefix p s = None.
Proof. unfold startsWith. destruct (stripPrefix p s); [discriminate|reflexivity]. Qed.

Lemma canonical_fixed y :
  isCanonicalForm y = true -> toLowerCase y = y -> normalizeRepoUrl y = Some y.
Proof.
  unfold isCanonicalForm. intros H Hlow.
  destruct (head y) as [a|] eqn:Hh; [|discriminate].
  destruct (last y) as [c|] eqn:Hl; [|discriminate].
  rewrite !andb_true_iff, !negb_true_iff in H.
  destruct H as [[[[[[Ha Hc] Hgit] Hhttp] Hhttps] Hdot] Hslash].
  apply bool_decide_eq_false in Hslash.
  rewrite normalize_plain.
  - unfold stripScheme.
    rewrite (startsWith_false _ _ Hhttp), (startsWith_false _ _ Hhttps).
    rewrite (stripDotGit_keep _ Hdot), (stripSlashes_keep _ _ Hl Hslash), Hlow.
    reflexivity.
  - intros ->. discriminate.
  - eapply trim_id; eassumption.
  - unfold azureMatch.
    destruct (stripPrefix (js "git@ssh.dev.azure.com:v3/") y) eqn:E; [|reflexivity].
    apply stripPrefix_Some in E. subst y. discriminate.
  - unfold sshMatch. rewrite (startsWith_false _ _ Hgit). reflexivity.
Qed.

End NormalForm.

(** ** Properties of the normalizer *)

Example normalize_ssh_example :
  normalizeRepoUrl (js "git@github.com:DataDog/web-ui.git")
  = Some (js "github.com/datadog/web-ui").
Proof. vm_compute. reflexivity. Qed.

Example normalize_https_example :
  normalizeRepoUrl (js "https://github.com/DataDog/web-ui.git")
  = Some (js "github.com/datadog/web-ui").
Proof. vm_compute. reflexivity. Qed.

Example normalize_upper_example :
  normalizeRepoUrl (js "GITHUB.COM/DataDog/Web-UI")
  = Some (js "github.com/datadog/web-ui").
Proof. vm_compute. reflexivity. Qed.

Example normalize_azure_example :
  normalizeRepoUrl (js "git@ssh.dev.azure.com:v3/org/project/repo")
  = Some (js "dev.azure.com/org/project/repo").
Proof. vm_compute. reflexivity. Qed.

Example normalize_slashes :
  normalizeRepoUrl (js "github.com/Foo/Bar///") = Some (js "github.com/foo/bar").
Proof. vm_compute. reflexivity. Qed.

Example normalize_trim :
  normalizeRepoUrl (js "  github.com/a/b  ") = Some (js "github.com/a/b").
Proof. vm_compute. reflexivity. Qed.

Example normalize_empty : normalizeRepoUrl (js "") = None.
Proof. reflexivity. Qed.

Example extract_name :
  extractRepoName (js "dev.azure.com/org/project/repo") = Some (js "repo").
Proof. vm_compute. reflexivity. Qed.

(** C4, as the specification states it, fails: the shorthand pattern is
    tried first, so the generic SSH spelling of a repository on the host
    [ssh.dev.azure.com] with the owner [v3] is read as the shorthand of
    [dev.azure.com], and it does not normalize to the identifier of the
    bare spelling of the same host, owner and repository name. *)
Lemma cross_syntax_shorthand_first :
  let v := {| syntax := SshSyntax; dotGit := false; trailingSlashes := 0 |} in
  let b := {| syntax := BareSyntax; dotGit := false; trailingSlashes := 0 |} in
  spell v (js "ssh.dev.azure.com") (js "v3") (js "repo")
    = js "git@ssh.dev.azure.com:v3/repo"
  /\ spell b (js "ssh.dev.azure.com") (js "v3") (js "repo")
    = js "ssh.dev.azure.com/v3/repo"
  /\ normalizeRepoUrl (spell v (js "ssh.dev.azure.com") (js "v3") (js "repo"))
     = Some (js "dev.azure.com/repo")
  /\ normalizeRepoUrl (spell b (js "ssh.dev.azure.com") (js "v3") (js "repo"))
     = Some (js "ssh.dev.azure.com/v3/repo")
  /\ normalizeRepoUrl (spell v (js "ssh.dev.azure.com") (js "v3") (js "repo"))
     <> normalizeRepoUrl (spell b (js "ssh.dev.azure.com") (js "v3") (js "repo")).
Proof. vm_compute. repeat split; congruence. Qed.

(** The two SSH forms keep a trailing slash, which the third form strips:
    the SSH spelling with a slash at its end does not normalize to the
    identifier of the bare spelling of the same repository. *)
Example cross_syntax_ssh_slash :
  let v := {| syntax := SshSyntax; dotGit := false; trailingSlashes := 1 |} in
  let b := {| syntax := BareSyntax; dotGit := false; trailingSlashes := 0 |} in
  spell v (js "github.com") (js "DataDog") (js "web-ui")
    = js "git@github.com:DataDog/web-ui/"
  /\ normalizeRepoUrl (spell v (js "github.com") (js "DataDog") (js "web-ui"))
     = Some (js "github.com/datadog/web-ui/")
  /\ normalizeRepoUrl (spell v (js "github.com") (js "DataDog") (js "web-ui"))
     <> normalizeRepoUrl (spell b (js "github.com") (js "DataDog") (js "web-ui")).
Proof. vm_compute. repeat split; congruence. Qed.

(** C4 (amended): for every host, owner and repository name made of Latin-1
    characters (not empty, free of white space, colons and slashes, the
    repository name not ending in [.git] in any case), each of these
    spellings normalizes to the lower case of [host/owner/repo]:
    - SSH [git@host:owner/repo], with or without [.git] and without a
      trailing slash, unless the host is [ssh.dev.azure.com] and the owner
      [v3], both written exactly so;
    - the shorthand [git@ssh.host:v3/owner/repo], with or without [.git] and
      without a trailing slash, for the host [dev.azure.com] written
      exactly so, in lower case;
    - [https://host/owner/repo], [http://host/owner/repo] and the bare
      [host/owner/repo], with or without [.git], or with any number of
      trailing slashes and no [.git].
    Apart from the host of the shorthand, the character case of host, owner
    and repository name is free; the scheme, [git@] and [.git] are in lower
    case. *)
Theorem cross_syntax_agreement (v : Spelling) (host owner repo : jsstring) :
  isPlainName host = true -> isPlainName owner = true ->
  isPlainName repo = true ->
  endsWith (js ".git") (toLowerCase repo) = false ->
  agreedSpelling v host owner = true ->
  normalizeRepoUrl (spell v host owner repo)
  = Some (toLowerCase (host ++ js "/" ++ owner ++ js "/" ++ repo)).
Proof.
  intros Hh Ho Hr Hg Hv. destruct v as [syn g n].
  unfold agreedSpelling in Hv. unfold spell.
  cbn [syntax dotGit trailingSlashes] in *.
  destruct syn.
  - apply andb_true_iff in Hv as [Hn Hv]. apply Nat.eqb_eq in Hn. subst n.
    apply normalize_ssh_spelling; assumption.
  - apply andb_true_iff in Hv as [Hn Hv]. apply Nat.eqb_eq in Hn. subst n.
    apply bool_decide_eq_true in Hv.
    apply normalize_azure_spelling; assumption.
  - rewrite <- (normalize_https host owner repo Hr Hg g n Hv). f_equal.
    unfold spellingRest. rewrite <- !app_assoc. reflexivity.
  - rewrite <- (normalize_http host owner repo Hr Hg g n Hv). f_equal.
    unfold spellingRest. rewrite <- !app_assoc. reflexivity.
  - rewrite <- (normalize_bare host owner repo Hh Ho Hr Hg g n Hv). f_equal.
    unfold spellingRest. rewrite <- !app_assoc. reflexivity.
Qed.

Lemma cross_syntax_agreement_witness :
  normalizeRepoUrl (js "https://GitHub.com/DataDog/Web-UI.git")
  = Some (js "github.com/datadog/web-ui").
Proof.
  exact (cross_syntax_agreement
           {| syntax := HttpsSyntax; dotGit := true; trailingSlashes := 0 |}
           (js "GitHub.com") (js "DataDog") (js "Web-UI")
           eq_refl eq_refl eq_refl eq_refl eq_refl).
Defined.

(** C5: the canonical form is not met.  On the HTTPS URL of a repository
    written with [.git] and a closing slash the normalizer removes the
    slash only, because it looks for [.git] at the end before it removes
    the slashes: its result ends in [.git].  The same holds for an upper
    case [.GIT], which the third form tests before it lowers the case. *)
Theorem canonical_form_keeps_dot_git :
  normalizeRepoUrl (js "https://github.com/Foo/Bar.git/")
  = Some (js "github.com/foo/bar.git")
  /\ endsWith (js ".git") (js "github.com/foo/bar.git") = true
  /\ normalizeRepoUrl (js "github.com/Foo/Bar.GIT")
     = Some (js "github.com/foo/bar.git")
  /\ normalizeRepoUrl (js "git@github.com:Foo/Bar.GIT")
     = Some (js "github.com/foo/bar").
Proof. vm_compute. repeat split. Qed.

(** The part of C5 that holds on every input: a result is in lower case. *)
Lemma canonical_form_lowercase x y :
  normalizeRepoUrl x = Some y -> toLowerCase y = y.
Proof. apply normalize_lowercase. Qed.

(** C6, as the specification states it, fails: only the user [git] is
    recognised; with another user name the input goes through the third
    form and keeps the user, the [@] and the colon. *)
Lemma generic_ssh_other_user :
  normalizeRepoUrl (js "alice@github.com:Org/Repo.git")
  = Some (js "alice@github.com:org/repo")
  /\ normalizeRepoUrl (js "alice@github.com:Org/Repo.git")
     <> Some (stripDotGit (toLowerCase (js "github.com" ++ js "/" ++ js "Org/Repo.git"))).
Proof. vm_compute. split; congruence. Qed.

(** C6 (amended): for the user [git], every nonempty host free of colons
    and every path free of line terminators that ends in a character other
    than white space, the input [git@host:path] normalizes to [host/path]
    in lower case with a trailing [.git] removed, unless it is the Azure
    shorthand, which the first pattern claims. *)
Theorem generic_ssh_form (host p : jsstring) (c : ascii) :
  host <> [] -> Forall (fun x => x <> ":"%char) host ->
  Forall (fun x => isLineTerminator x = false) p ->
  last p = Some c -> isWhiteSpace c = false ->
  azureMatch (js "git@" ++ host ++ js ":" ++ p) = None ->
  normalizeRepoUrl (js "git@" ++ host ++ js ":" ++ p)
  = Some (stripDotGit (toLowerCase (host ++ js "/" ++ p))).
Proof. apply normalize_ssh_form. Qed.

Lemma generic_ssh_form_witness :
  normalizeRepoUrl (js "git@GitLab.com:Group/Sub/Tool.git")
  = Some (js "gitlab.com/group/sub/tool").
Proof.
  apply (generic_ssh_form (js "GitLab.com") (js "Group/Sub/Tool.git") "t"%char).
  - discriminate.
  - repeat constructor; discriminate.
  - repeat constructor.
  - reflexivity.
  - reflexivity.
  - reflexivity.
Defined.

(** C7, as the specification states it, fails: one suffix [.git] is removed
    in a pass, so the result of a first pass can lose another one in the
    second pass. *)
Lemma idempotent_double_suffix :
  normalizeRepoUrl (js "github.com/foo/bar.git.git")
  = Some (js "github.com/foo/bar.git")
  /\ normalizeRepoUrl (js "github.com/foo/bar.git")
     = Some (js "github.com/foo/bar")
  /\ normalizeRepoUrl (js "github.com/foo/bar.git")
     <> Some (js "github.com/foo/bar.git").
Proof. vm_compute. repeat split; congruence. Qed.

(** C7 (amended): normalization is idempotent on every input whose result is
    in canonical form, that is not empty, without white space at its ends,
    without a leading [git@], [http://] or [https://] and without a
    trailing [.git] or slash: fed back as raw input, such a result is
    returned as it is. *)
Theorem normalize_idempotent (x y : jsstring) :
  normalizeRepoUrl x = Some y -> isCanonicalForm y = true ->
  normalizeRepoUrl y = normalizeRepoUrl x.
Proof.
  intros Hx Hy. rewrite Hx. apply canonical_fixed; [exact Hy|].
  eapply normalize_lowercase, Hx.
Qed.

Lemma normalize_idempotent_witness :
  normalizeRepoUrl (js "github.com/datadog/web-ui")
  = normalizeRepoUrl (js "git@github.com:DataDog/web-ui.git").
Proof.
  apply (normalize_idempotent (js "git@github.com:DataDog/web-ui.git")
           (js "github.com/datadog/web-ui")); reflexivity.
Defined.

Section Scan.

Variable w : World.
Variables repoName normalizedUrl : jsstring.

Lemma pathJoin_truthy dir n : truthy (Some (pathJoin dir n)) = true.
Proof. unfold pathJoin. destruct dir; reflexivity. Qed.

Lemma truthy_Some r : truthy r = true -> exists p, r = Some p /\ p <> [].
Proof.
  destruct r as [[|c p]|]; try discriminate. intros _.
  exists (c :: p). split; [reflexivity|discriminate].
Qed.

(** What a result of the loop over the entries comes from: a directory
    entry outside the Skip-Set that is accepted itself, or in which the
    recursive call found the result. *)
Lemma walkEntries_sound recurse dir entries p :
  walkEntries w recurse dir repoName normalizedUrl entries = Some p ->
  exists e, e ∈ entries /\ isDirectory e = true /\ (name e ∉ SKIP_DIRS)
    /\ ((p = pathJoin dir (name e)
         /\ toLowerCase (name e) = repoName
         /\ isCheckoutOf w normalizedUrl p = true)
        \/ recurse (pathJoin dir (name e)) = Some p).
Proof.
  induction entries as [|e rest IH]; simpl; [discriminate|].
  assert (Hrest : walkEntries w recurse dir repoName normalizedUrl rest = Some p ->
    exists e0, e0 ∈ e :: rest /\ isDirectory e0 = true /\ (name e0 ∉ SKIP_DIRS)
    /\ ((p = pathJoin dir (name e0) /\ toLowerCase (name e0) = repoName
         /\ isCheckoutOf w normalizedUrl p = true)
        \/ recurse (pathJoin dir (name e0)) = Some p)).
  { intros H. destruct (IH H) as (e0 & Hin & Hrest). exists e0. split; [right; exact Hin|exact Hrest]. }
  destruct (isDirectory e) eqn:Hd; simpl; [|exact Hrest].
  case_bool_decide as Hskip; [exact Hrest|].
  destruct (eqb (toLowerCase (name e)) repoName
            && isCheckoutOf w normalizedUrl (pathJoin dir (name e))) eqn:Hm.
  - intros [= <-]. apply andb_true_iff in Hm as [Hn Hc].
    apply bool_decide_eq_true in Hn.
    exists e. split; [left|]. repeat split; auto.
  - destruct (truthy (recurse (pathJoin dir (name e)))) eqn:Ht; [|exact Hrest].
    intros H. exists e. split; [left|]. repeat split; auto.
Qed.

(** The loop returns a result as soon as one entry gives one. *)
Lemma walkEntries_complete recurse dir entries e :
  e ∈ entries -> isDirectory e = true -> name e ∉ SKIP_DIRS ->
  (toLowerCase (name e) = repoName
   /\ isCheckoutOf w normalizedUrl (pathJoin dir (name e)) = true)
  \/ truthy (recurse (pathJoin dir (name e))) = true ->
  truthy (walkEntries w recurse dir repoName normalizedUrl entries) = true.
Proof.
  intros Hin Hd Hskip Hfound.
  induction entries as [|e0 rest IH]; [inversion Hin|].
  simpl.
  destruct (isDirectory e0) eqn:Hd0; simpl.
  2:{ apply IH. inversion Hin; subst; [congruence|assumption]. }
  case_bool_decide as Hs0.
  { apply IH. inversion Hin; subst; [contradiction|assumption]. }
  destruct (eqb (toLowerCase (name e0)) repoName
            && isCheckoutOf w normalizedUrl (pathJoin dir (name e0))) eqn:Hm.
  { apply pathJoin_truthy. }
  destruct (truthy (recurse (pathJoin dir (name e0)))) eqn:Ht; [exact Ht|].
  apply IH. inversion Hin; subst; [|assumption]. exfalso.
  destruct Hfound as [[Hn Hc]|Hr]; [|congruence].
  unfold eqb in Hm. rewrite bool_decide_true in Hm by exact Hn.
  rewrite Hc in Hm. discriminate.
Qed.


Lemma walkEntries_ext r1 r2 dir entries :
  (forall full, r1 full = r2 full) ->
  walkEntries w r1 dir repoName normalizedUrl entries
  = walkEntries w r2 dir repoName normalizedUrl entries.
Proof.
  intros Hr. induction entries as [|e rest IH]; simpl; [reflexivity|].
  rewrite Hr, IH. reflexivity.
Qed.

(** More fuel than the depth bound needs changes nothing: [walkDir] never
    runs out of it. *)
Lemma walkDirFuel_enough f1 f2 dir depth maxDepth :
  (maxDepth + 1 - depth <= Z.of_nat f1)%Z ->
  (maxDepth + 1 - depth <= Z.of_nat f2)%Z ->
  walkDirFuel f1 w dir repoName normalizedUrl depth maxDepth
  = walkDirFuel f2 w dir repoName normalizedUrl depth maxDepth.
Proof.
  revert f2 dir depth. induction f1 as [|f1 IH]; intros f2 dir depth H1 H2.
  - destruct f2; simpl; destruct (depth >? maxDepth)%Z eqn:E; try reflexivity; lia.
  - destruct f2; simpl; destruct (depth >? maxDepth)%Z eqn:E; try reflexivity; try lia.
    destruct (readdirSync w dir); [|reflexivity].
    apply walkEntries_ext. intros full. apply IH; lia.
Qed.

Lemma walkDir_unfold dir depth maxDepth :
  walkDir w dir repoName normalizedUrl depth maxDepth
  = if (depth >? maxDepth)%Z then None
    else match readdirSync w dir with
         | None => None
         | Some entries =>
             walkEntries w
               (fun full => walkDir w full repoName normalizedUrl (depth + 1) maxDepth)
               dir repoName normalizedUrl entries
         end.
Proof.
  unfold walkDir. destruct (depth >? maxDepth)%Z eqn:E.
  - destruct (Z.to_nat _); simpl; rewrite E; reflexivity.
  - replace (Z.to_nat (maxDepth + 1 - depth))
      with (S (Z.to_nat (maxDepth + 1 - (depth + 1)))) by lia.
    simpl. rewrite E. reflexivity.
Qed.

Lemma listed_entry (e : Dirent) (entries : list Dirent) :
  e ∈ entries -> isDirectory e = true ->
  {| name := name e; isDirectory := true |} ∈ entries.
Proof. destruct e as [n d]; simpl. intros H ->. exact H. Qed.

Lemma pathUnder_cons dir n ns :
  pathUnder dir (n :: ns) = pathUnder (pathJoin dir n) ns.
Proof. reflexivity. Qed.

(** A result of [walkDir] is a checkout below [dir], reached by descents
    through directories outside the Skip-Set, at most
    [maxDepth + 1 - depth] of them. *)
Lemma walkDir_sound maxDepth n :
  forall dir depth p,
  Z.of_nat n = Z.max 0 (maxDepth + 1 - depth) ->
  walkDir w dir repoName normalizedUrl depth maxDepth = Some p ->
  exists names, names <> [] /\ p = pathUnder dir names
    /\ checkoutBelow w normalizedUrl repoName dir names
    /\ (depth + Z.of_nat (length names) <= maxDepth + 1)%Z.
Proof.
  induction n as [|n IH]; intros dir depth p Hn; rewrite walkDir_unfold;
    destruct (depth >? maxDepth)%Z eqn:E; try discriminate; try lia.
  destruct (readdirSync w dir) as [entries|] eqn:Hr; [|discriminate].
  intros H. apply walkEntries_sound in H as (e & Hin & Hd & Hskip & [(-> & Hname & Hc)|Hrec]).
  - exists [name e]. split; [discriminate|]. split; [reflexivity|]. split.
    + split; [|split].
      * apply descends_into; [|exact Hskip|constructor].
        exists entries. split; [exact Hr|]. apply listed_entry; assumption.
      * exists (name e). split; [reflexivity|exact Hname].
      * exact Hc.
    + simpl. lia.
  - apply IH in Hrec as (names & Hne & -> & (Hdesc & (m & Hl & Hm) & Hc) & Hlen); [|lia].
    exists (name e :: names). split; [discriminate|]. split; [reflexivity|]. split.
    + split; [|split].
      * apply descends_into; [|exact Hskip|exact Hdesc].
        exists entries. split; [exact Hr|]. apply listed_entry; assumption.
      * exists m. split; [|exact Hm]. rewrite last_cons, Hl. reflexivity.
      * exact Hc.
    + simpl length. lia.
Qed.

(** A checkout at most [maxDepth + 1 - depth] descents below [dir] makes
    [walkDir] return a result. *)
Lemma walkDir_complete maxDepth names :
  forall dir depth,
  names <> [] ->
  checkoutBelow w normalizedUrl repoName dir names ->
  (0 <= depth)%Z ->
  (depth + Z.of_nat (length names) <= maxDepth + 1)%Z ->
  truthy (walkDir w dir repoName normalizedUrl depth maxDepth) = true.
Proof.
  induction names as [|n ns IH]; intros dir depth Hne (Hdesc & (m & Hl & Hm) & Hc) H0 Hlen;
    [contradiction|].
  rewrite walkDir_unfold. simpl length in Hlen.
  destruct (depth >? maxDepth)%Z eqn:E; [lia|].
  revert Hm. inversion Hdesc as [|? ? ? (entries & Hr & Hin) Hskip Hrest]; subst.
  intros Hm.
  rewrite Hr.
  apply (walkEntries_complete _ _ _ {| name := n; isDirectory := true |});
    [exact Hin|reflexivity|exact Hskip|]. simpl name.
  destruct ns as [|n' ns'].
  - left. simpl in Hl. injection Hl as ->. split; [exact Hm|exact Hc].
  - right. apply IH; [discriminate| |lia|simpl length in *; lia].
    split; [exact Hrest|]. split; [|exact Hc].
    exists m. split; [|exact Hm]. rewrite last_cons in Hl.
    destruct (last (n' :: ns')) eqn:E2; [exact Hl|].
    apply last_None in E2. discriminate.
Qed.

End Scan.

Section ScanRoots.

Variable w : World.
Variables repoName normalizedUrl : jsstring.

Lemma scanRoots_sound searchPaths maxDepth p :
  scanRoots w repoName normalizedUrl searchPaths maxDepth = Some p ->
  exists raw, raw ∈ searchPaths
    /\ walkDir w (expandHome w raw) repoName normalizedUrl 0 maxDepth = Some p.
Proof.
  induction searchPaths as [|raw rest IH]; simpl; [discriminate|].
  destruct (truthy _) eqn:Ht.
  - intros H. exists raw. split; [left|exact H].
  - intros H. destruct (IH H) as (r & Hin & Hr). exists r. split; [right; exact Hin|exact Hr].
Qed.

Lemma scanRoots_complete searchPaths maxDepth raw :
  raw ∈ searchPaths ->
  truthy (walkDir w (expandHome w raw) repoName normalizedUrl 0 maxDepth) = true ->
  truthy (scanRoots w repoName normalizedUrl searchPaths maxDepth) = true.
Proof.
  intros Hin Ht. induction searchPaths as [|r rest IH]; [inversion Hin|].
  simpl. destruct (truthy (walkDir w (expandHome w r) _ _ _ _)) eqn:E; [exact E|].
  apply IH. inversion Hin; subst; [congruence|assumption].
Qed.

Lemma descends_skip dir names :
  descends w dir names -> Forall (fun n => n ∉ SKIP_DIRS) names.
Proof. induction 1; constructor; assumption. Qed.

End ScanRoots.

Lemma scanForRepo_sound w normalizedUrl searchPaths maxDepth p :
  scanForRepo w normalizedUrl searchPaths maxDepth = Some p ->
  exists repoName raw names,
    extractRepoName normalizedUrl = Some repoName
    /\ raw ∈ searchPaths /\ names <> []
    /\ p = pathUnder (expandHome w raw) names
    /\ checkoutBelow w normalizedUrl repoName (expandHome w raw) names
    /\ (Z.of_nat (length names) <= maxDepth + 1)%Z.
Proof.
  unfold scanForRepo. destruct (extractRepoName normalizedUrl) as [[|c rn]|] eqn:E;
    try discriminate.
  intros H. apply scanRoots_sound in H as (raw & Hin & H).
  eapply (walkDir_sound _ _ _ _ (Z.to_nat (Z.max 0 (maxDepth + 1 - 0)))) in H as (names & Hne & -> & Hc & Hlen); [|lia].
  exists (c :: rn), raw, names. repeat split; try assumption; apply Hc.
Qed.

Lemma scanForRepo_complete w normalizedUrl repoName searchPaths maxDepth raw names :
  extractRepoName normalizedUrl = Some repoName -> repoName <> [] ->
  raw ∈ searchPaths -> names <> [] ->
  checkoutBelow w normalizedUrl repoName (expandHome w raw) names ->
  (Z.of_nat (length names) <= maxDepth + 1)%Z ->
  truthy (scanForRepo w normalizedUrl searchPaths maxDepth) = true.
Proof.
  intros E Hrn Hin Hne Hc Hlen. unfold scanForRepo. rewrite E.
  destruct repoName as [|c rn]; [contradiction|].
  eapply scanRoots_complete; [exact Hin|].
  eapply walkDir_complete; eauto; lia.
Qed.




Section Cache.

Variable w : World.
Hypothesis Hwrite : cacheWritable w = true.

Lemma saveCache_ok cache s :
  saveCache w cache s
  = Return tt {| cacheFile := Some cache; console := console s; ticks := ticks s |}.
Proof. unfold saveCache. rewrite Hwrite. reflexivity. Qed.

(** [cacheLookup] returns when the cache file can be written. *)
Lemma cacheLookup_returns id s :
  exists r s', cacheLookup w id s = Return r s'.
Proof.
  unfold cacheLookup, bind, loadCache.
  destruct (getProp _ id) as [[e|]|].
  - destruct (negb (existsSync w (path e))).
    + rewrite saveCache_ok. eauto.
    + destruct (negb (includes _ id)).
      * rewrite saveCache_ok. eauto.
      * unfold nowISO. rewrite saveCache_ok. eauto.
  - rewrite saveCache_ok. eauto.
  - eauto.
Qed.

Lemma cacheStore_returns id p s :
  exists s', cacheStore w id p s = Return tt s'.
Proof.
  unfold cacheStore, bind, loadCache, nowISO. rewrite saveCache_ok. eauto.
Qed.

(** A lookup of a key for which the cache has no property changes nothing
    and gives nothing. *)
Lemma cacheLookup_absent id s :
  getProp (loadedCache s) id = None -> cacheLookup w id s = Return None s.
Proof.
  intros H. unfold cacheLookup, bind, loadCache. fold (loadedCache s).
  rewrite H. reflexivity.
Qed.

(** A lookup of a valid entry returns its path, refreshes its time stamp
    and writes one line. *)
Lemma cacheLookup_hit id s e :
  loadedCache s !! id = Some e ->
  existsSync w (path e) = true ->
  includes (map normalizeRepoUrl (getRepoRemotes w (path e))) id = true ->
  cacheLookup w id s
  = Return (Some (path e))
      {| cacheFile := Some (<[id := {| path := path e;
                                        lastUsed := clock w (ticks s) |}]>
                              (loadedCache s));
         console := console s ++ [LogCacheHit id (path e)];
         ticks := S (ticks s) |}.
Proof.
  intros Hm He Hi. unfold cacheLookup, bind, loadCache. fold (loadedCache s).
  unfold getProp. rewrite Hm, He, Hi. simpl. unfold nowISO. rewrite saveCache_ok.
  reflexivity.
Qed.

End Cache.

Section Resolve.

Variable w : World.

Lemma resolveRepo_invalid raw s :
  normalizeRepoUrl raw = None \/ normalizeRepoUrl raw = Some [] ->
  resolveRepo w raw s = Return None (withConsole s [LogInvalid raw]).
Proof. unfold resolveRepo. intros [-> | ->]; reflexivity. Qed.



Hypothesis Hwrite : cacheWritable w = true.

(** What [resolveRepo] does when the cache lookup gives no path: it scans
    with the configured roots and depth, stores a path that the scan found,
    and writes two more lines. *)
Lemma resolveRepo_scan raw n s c s1 :
  normalizeRepoUrl raw = Some n -> n <> [] ->
  cacheLookup w n (withConsole s [LogResolving n]) = Return c s1 ->
  truthy c = false ->
  let sp := searchPathsOf (loadConfig w) in
  let d := maxDepthOf (loadConfig w) in
  exists s',
    resolveRepo w raw s
    = Return (if truthy (scanForRepo w n sp d) then scanForRepo w n sp d
              else None) s'
    /\ exists l, console s' = console s1 ++ [LogScanning sp d; l].
Proof.
  intros Hn Hne Hc Ht sp d. unfold resolveRepo. rewrite Hn.
  destruct n as [|a n']; [contradiction|].
  unfold bind at 1. unfold consoleLog at 1. unfold bind at 1.
  change {| cacheFile := cacheFile s;
            console := console s ++ [LogResolving (a :: n')];
            ticks := ticks s |} with (withConsole s [LogResolving (a :: n')]).
  rewrite Hc, Ht.
  unfold bind at 1. unfold consoleLog at 1. fold sp d.
  destruct (scanForRepo w (a :: n') sp d) as [[|c' p]|] eqn:Hscan; cbn [truthy].
  - unfold bind, consoleLog, ret. simpl. eexists. split; [reflexivity|].
    eexists. rewrite <- !app_assoc. reflexivity.
  - unfold bind at 1. unfold consoleLog at 1. unfold bind at 1.
    unfold cacheStore, bind, loadCache, nowISO. rewrite (saveCache_ok w Hwrite).
    unfold ret. simpl. eexists. split; [reflexivity|].
    eexists. rewrite <- !app_assoc. reflexivity.
  - unfold bind, consoleLog, ret. simpl. eexists. split; [reflexivity|].
    eexists. rewrite <- !app_assoc. reflexivity.
Qed.

(** The same when the cache has no property for the normalized URL. *)
Lemma resolveRepo_miss raw n s :
  normalizeRepoUrl raw = Some n -> n <> [] ->
  getProp (loadedCache s) n = None ->
  let sp := searchPathsOf (loadConfig w) in
  let d := maxDepthOf (loadConfig w) in
  exists s',
    resolveRepo w raw s
    = Return (if truthy (scanForRepo w n sp d) then scanForRepo w n sp d
              else None) s'
    /\ exists l, console s' = console s ++ [LogResolving n; LogScanning sp d; l].
Proof.
  intros Hn Hne Hmiss sp d.
  destruct (resolveRepo_scan raw n s None (withConsole s [LogResolving n]) Hn Hne)
    as (s' & Hr & l & Hl).
  - apply cacheLookup_absent. exact Hmiss.
  - reflexivity.
  - exists s'. split; [exact Hr|]. exists l. rewrite Hl. simpl.
    rewrite <- app_assoc. reflexivity.
Qed.

(** [resolveRepo] returns when the cache file can be written. *)
Lemma resolveRepo_returns raw s :
  exists r s', resolveRepo w raw s = Return r s'.
Proof.
  unfold resolveRepo. destruct (normalizeRepoUrl raw) as [[|c n]|] eqn:Hn;
    try (unfold bind, consoleLog, ret; eauto).
  destruct (cacheLookup_returns w Hwrite (c :: n)
              {| cacheFile := cacheFile s;
                 console := console s ++ [LogResolving (c :: n)];
                 ticks := ticks s |}) as (r & s1 & Hr).
  rewrite Hr. destruct (truthy r); [eauto|].
  destruct (scanForRepo w (c :: n) _ _) as [[|c' p]|]; try eauto.
  unfold cacheStore, bind, loadCache, nowISO. rewrite (saveCache_ok w Hwrite). eauto.
Qed.

End Resolve.

(** ** Properties of the scan *)

Example depthWorld_remotes :
  getRepoRemotes depthWorld (js "/scan/a/b/my-repo")
  = [js "git@github.com:Org/my-repo.git"].
Proof. vm_compute. reflexivity. Qed.

Example depthWorld_scan1 :
  scanForRepo depthWorld (js "github.com/org/my-repo") [js "/scan"] 1 = None.
Proof. vm_compute. reflexivity. Qed.

Example skipWorld_node_modules :
  scanForRepo skipWorld (js "github.com/org/my-lib") [js "/scan"] 4 = None.
Proof. vm_compute. reflexivity. Qed.

(** A checkout whose own directory name is in the Skip-Set is skipped before
    its name is compared. *)
Example skipWorld_build :
  scanForRepo skipWorld (js "github.com/org/build") [js "/scan"] 4 = None.
Proof. vm_compute. reflexivity. Qed.





(** C8, as the specification states it, fails: the names inside the path of
    a search root are not looked at.  In the tree of the test on skipped
    directories, the scan of the root [/scan/node_modules] returns the
    checkout [/scan/node_modules/my-lib], a path inside a directory named
    [node_modules]; the scan of the root [/scan] does not. *)
Lemma skip_set_root_not_checked :
  js "node_modules" ∈ SKIP_DIRS
  /\ scanForRepo skipWorld (js "github.com/org/my-lib")
       [js "/scan/node_modules"] 4
     = Some (js "/scan/node_modules/my-lib")
  /\ scanForRepo skipWorld (js "github.com/org/my-lib") [js "/scan"] 4 = None.
Proof.
  split; [|split]; [|vm_compute; reflexivity..].
  apply list_elem_of_In. vm_compute. tauto.
Qed.

(** C8 (amended): whatever the tree, the search roots and [maxDepth], a path
    that the scan returns lies below one of the search roots through
    directories none of which, the returned one included, has a name in the
    Skip-Set: below a root, a child with such a name is passed over before
    its name is compared and before it is entered, at every depth.  The
    names inside the path of the root itself are not checked. *)
Theorem skip_set_enforced (w : World) (normalizedUrl : jsstring)
    (searchPaths : list jsstring) (maxDepth : Z) (p : jsstring) :
  scanForRepo w normalizedUrl searchPaths maxDepth = Some p ->
  exists raw names,
    raw ∈ searchPaths /\ names <> []
    /\ p = pathUnder (expandHome w raw) names
    /\ descends w (expandHome w raw) names
    /\ Forall (fun n => n ∉ SKIP_DIRS) names.
Proof.
  intros H. apply scanForRepo_sound in H
    as (rn & raw & names & _ & Hin & Hne & Hp & (Hd & _) & _).
  exists raw, names. repeat split; try assumption.
  eapply descends_skip, Hd.
Qed.

Lemma skip_set_enforced_witness :
  exists raw names,
    raw ∈ [js "/scan"] /\ names <> []
    /\ js "/scan/a/b/my-repo" = pathUnder (expandHome depthWorld raw) names
    /\ descends depthWorld (expandHome depthWorld raw) names
    /\ Forall (fun n => n ∉ SKIP_DIRS) names.
Proof.
  apply (skip_set_enforced depthWorld (js "github.com/org/my-repo")
           [js "/scan"] 2 (js "/scan/a/b/my-repo")).
  vm_compute. reflexivity.
Defined.

(** ** Properties of the cache *)

(** C2 fails when the cache file cannot be written.  [saveCache] does not
    catch what [fs.writeFileSync] throws, so the lookup of an entry whose
    path is gone does not return [null], as the comment of [cacheLookup]
    and the specification say: it throws, and the cache file still holds
    the entry. *)
Theorem stale_entry_throws_when_unwritable :
  let id := js "github.com/gone/gone" in
  cacheFile goneState = Some {[ id := goneEntry ]}
  /\ existsSync readOnlyWorld (path goneEntry) = false
  /\ cacheWritable readOnlyWorld = false
  /\ cacheLookup readOnlyWorld id goneState = Throw goneState
  /\ loadedCache (finalState (cacheLookup readOnlyWorld id goneState)) !! id
     = Some goneEntry.
Proof. vm_compute. repeat split. Qed.

(** The eviction, when the cache file can be written: if the cache file
    holds an entry for [id] whose path no longer exists, or whose remotes,
    each normalized, no longer contain [id], the lookup returns [null], and
    the cache file it leaves holds the mapping without that entry: the
    entry is removed and the mapping written back before the lookup
    returns. *)
Lemma stale_entry_evicted (w : World) (id : jsstring) (s : State)
    (m : gmap jsstring Entry) (e : Entry) :
  cacheWritable w = true ->
  cacheFile s = Some m -> m !! id = Some e ->
  existsSync w (path e) = false
  \/ includes (map normalizeRepoUrl (getRepoRemotes w (path e))) id = false ->
  exists s',
    cacheLookup w id s = Return None s'
    /\ cacheFile s' = Some (delete id m)
    /\ delete id m !! id = None
    /\ (forall k, k <> id -> delete id m !! k = m !! k).
Proof.
  intros Hw Hs Hm Hstale.
  assert (Hdel : delete id m !! id = None /\
                 (forall k, k <> id -> delete id m !! k = m !! k)).
  { split; [apply lookup_delete_eq|]. intros k Hk. apply lookup_delete_ne. congruence. }
  unfold cacheLookup, bind, loadCache. rewrite Hs. unfold getProp. rewrite Hm.
  destruct (existsSync w (path e)) eqn:He; simpl.
  - destruct Hstale as [?|Hi]; [discriminate|]. rewrite Hi. simpl.
    rewrite (saveCache_ok w Hw). eexists. split; [reflexivity|]. split; [reflexivity|exact Hdel].
  - rewrite (saveCache_ok w Hw). eexists. split; [reflexivity|]. split; [reflexivity|exact Hdel].
Qed.

Lemma stale_entry_evicted_witness :
  exists s',
    cacheLookup depthWorld (js "github.com/gone/gone") goneState = Return None s'
    /\ cacheFile s'
       = Some (delete (js "github.com/gone/gone")
                 ({[ js "github.com/gone/gone" := goneEntry ]} : gmap jsstring Entry))
    /\ delete (js "github.com/gone/gone")
         ({[ js "github.com/gone/gone" := goneEntry ]} : gmap jsstring Entry)
       !! js "github.com/gone/gone" = None
    /\ (forall k, k <> js "github.com/gone/gone" ->
          delete (js "github.com/gone/gone")
            ({[ js "github.com/gone/gone" := goneEntry ]} : gmap jsstring Entry) !! k
          = ({[ js "github.com/gone/gone" := goneEntry ]} : gmap jsstring Entry) !! k).
Proof.
  apply (stale_entry_evicted depthWorld (js "github.com/gone/gone") goneState
           {[ js "github.com/gone/gone" := goneEntry ]} goneEntry).
  - reflexivity.
  - reflexivity.
  - apply lookup_singleton_eq.
  - left. vm_compute. reflexivity.
Defined.

(** The round trip through the cache, for every identifier other than
    [__proto__]: after [cacheStore(X, P)], with [P] an existing directory
    whose normalized remotes include [X], [resolveRepo] on a raw input that
    normalizes to [X] returns [P] and writes the two lines of a cache hit,
    none of them the line that announces a scan. *)
Lemma cache_round_trip (w : World) (X P raw : jsstring) (s : State) :
  cacheWritable w = true ->
  X <> [] -> X <> js "__proto__" -> P <> [] ->
  existsSync w P = true ->
  includes (map normalizeRepoUrl (getRepoRemotes w P)) X = true ->
  normalizeRepoUrl raw = Some X ->
  exists s1 s2,
    cacheStore w X P s = Return tt s1
    /\ resolveRepo w raw s1 = Return (Some P) s2
    /\ console s2 = console s1 ++ [LogResolving X; LogCacheHit X P].
Proof.
  intros Hw HX Hproto HP He Hi Hn.
  unfold cacheStore, bind, loadCache, nowISO. rewrite (saveCache_ok w Hw).
  fold (loadedCache s). unfold setProp.
  rewrite (bool_decide_false _ Hproto). cbn [andb console ticks].
  eexists. eexists. split; [reflexivity|].
  unfold resolveRepo. rewrite Hn. destruct X as [|c X']; [contradiction|].
  unfold bind at 1. unfold consoleLog at 1. unfold bind at 1.
  cbn [cacheFile console ticks].
  erewrite (cacheLookup_hit w Hw (c :: X') _ {| path := P; lastUsed := _ |});
    [| apply lookup_insert_eq | exact He | exact Hi].
  cbn [path]. destruct P as [|c' P']; [contradiction|].
  cbn [truthy]. unfold ret. split; [reflexivity|].
  cbn [console]. rewrite <- app_assoc. reflexivity.
Qed.

(** C1 fails for the identifier [__proto__].  The cache is a plain object:
    [cache["__proto__"] = entry] replaces its prototype and adds no property,
    so [cacheStore] writes the cache file without the entry; the lookup of
    [resolveRepo] then reads [Object.prototype] as a stale entry and the
    scan runs.  Here the checkout is outside the search roots, and the call
    returns [null] instead of its path. *)
Theorem round_trip_lost_for_proto :
  let X := js "__proto__" in
  let P := js "/work/odd" in
  let s1 := finalState (cacheStore protoWorld X P emptyState) in
  normalizeRepoUrl X = Some X
  /\ existsSync protoWorld P = true
  /\ includes (map normalizeRepoUrl (getRepoRemotes protoWorld P)) X = true
  /\ cacheFile s1 = Some ∅
  /\ returned (resolveRepo protoWorld X s1) = Some None
  /\ console (finalState (resolveRepo protoWorld X s1))
     = [ LogResolving X; LogStalePathGone None;
         LogScanning [js "~/dd"] 4; LogNotFound X ].
Proof. vm_compute. repeat split. Qed.

(** ** Properties of the entry point *)




(** The exception that does escape [resolveRepo]: a failed write of the
    cache file. *)
Example unwritable_cache_throws :
  resolveRepo readOnlyWorld (js "github.com/gone/gone") goneState
  = Throw {| cacheFile := cacheFile goneState;
             console := [LogResolving (js "github.com/gone/gone")];
             ticks := 0 |}.
Proof. vm_compute. reflexivity. Qed.

Example zeroDepthWorld_scan0 :
  scanForRepo zeroDepthWorld (js "github.com/org/my-repo") [js "/scan"] 0 = None.
Proof. vm_compute. reflexivity. Qed.

(** C10: when the configuration sets [GIT_SEARCH_MAX_DEPTH] to 0, or holds
    [null] for it, as an unparsable value is stored, a call whose cache
    lookup gives no path scans with [maxDepth] 4: the line it writes
    announces depth 4 and its result is the one of [scanForRepo] at
    depth 4. *)
Theorem zero_depth_replaced (w : World) (raw n : jsstring) (s s1 : State)
    (c : option jsstring) :
  GIT_SEARCH_MAX_DEPTH (loadConfig w) = DepthNum 0
  \/ GIT_SEARCH_MAX_DEPTH (loadConfig w) = DepthNull ->
  cacheWritable w = true ->
  normalizeRepoUrl raw = Some n -> n <> [] ->
  cacheLookup w n (withConsole s [LogResolving n]) = Return c s1 ->
  truthy c = false ->
  let sp := searchPathsOf (loadConfig w) in
  maxDepthOf (loadConfig w) = 4%Z
  /\ exists s',
       resolveRepo w raw s
       = Return (if truthy (scanForRepo w n sp 4) then scanForRepo w n sp 4
                 else None) s'
       /\ exists l, console s' = console s1 ++ [LogScanning sp 4; l].
Proof.
  intros Hd Hw Hn Hne Hc Ht sp.
  assert (H4 : maxDepthOf (loadConfig w) = 4%Z)
    by (unfold maxDepthOf; destruct Hd as [-> | ->]; reflexivity).
  split; [exact H4|].
  destruct (resolveRepo_scan w Hw raw n s c s1 Hn Hne Hc Ht) as (s' & Hr & Hl).
  rewrite H4 in Hr, Hl. exists s'. split; assumption.
Qed.

Lemma zero_depth_replaced_witness :
  maxDepthOf (loadConfig zeroDepthWorld) = 4%Z
  /\ exists s',
       resolveRepo zeroDepthWorld (js "git@github.com:Org/my-repo.git") emptyState
       = Return (Some (js "/scan/a/b/my-repo")) s'
       /\ exists l, console s'
            = [LogResolving (js "github.com/org/my-repo")]
              ++ [LogScanning [js "/scan"] 4; l].
Proof.
  apply (zero_depth_replaced zeroDepthWorld (js "git@github.com:Org/my-repo.git")
           (js "github.com/org/my-repo") emptyState
           (withConsole emptyState [LogResolving (js "github.com/org/my-repo")])
           None).
  - left. reflexivity.
  - reflexivity.
  - vm_compute. reflexivity.
  - discriminate.
  - vm_compute. reflexivity.
  - reflexivity.
Defined.

(** * Further properties of the resolver *)

Section TrimFacts.

Lemma dropWhile_suffix p s : exists a, s = a ++ dropWhile p s.
Proof.
  induction s as [|c s [a IH]]; simpl; [exists []; reflexivity|].
  destruct (p c); [|exists []; reflexivity].
  exists (c :: a). simpl. f_equal. exact IH.
Qed.

Lemma dropWhile_head p s c : head (dropWhile p s) = Some c -> p c = false.
Proof.
  induction s as [|x s IH]; simpl; [discriminate|].
  destruct (p x) eqn:E; [exact IH|]. simpl. intros [= <-]. exact E.
Qed.

Lemma dropWhileEnd_prefix p s : exists b, s = dropWhileEnd p s ++ b.
Proof.
  unfold dropWhileEnd. destruct (dropWhile_suffix p (rev s)) as [a Ha].
  exists (rev a). rewrite <- rev_app_distr, <- Ha, rev_involutive. reflexivity.
Qed.

Lemma dropWhileEnd_last p s c : last (dropWhileEnd p s) = Some c -> p c = false.
Proof.
  unfold dropWhileEnd. intros H. apply (dropWhile_head p (rev s)).
  destruct (dropWhile p (rev s)) as [|x l]; [discriminate|].
  simpl in H. rewrite last_snoc in H. exact H.
Qed.

Lemma prefix_head (a b : jsstring) c : head (a ++ b) = Some c -> a <> [] -> head a = Some c.
Proof. destruct a; [contradiction|]. auto. Qed.

(** [trim] does nothing to a string it has trimmed. *)
Lemma trim_idem s : trim (trim s) = trim s.
Proof.
  destruct (trim s) as [|a t] eqn:E; [reflexivity|]. rewrite <- E.
  assert (Hne : trim s <> []) by (rewrite E; discriminate).
  destruct (last (trim s)) as [c|] eqn:Hl; [|apply last_None in Hl; contradiction].
  apply (trim_id (trim s) a c); [rewrite E; reflexivity| |exact Hl|].
  - unfold trim in E.
    destruct (dropWhileEnd_prefix isWhiteSpace (dropWhile isWhiteSpace s)) as [b Hb].
    rewrite E in Hb. apply (dropWhile_head isWhiteSpace s). rewrite Hb. reflexivity.
  - apply (dropWhileEnd_last isWhiteSpace (dropWhile isWhiteSpace s)). exact Hl.
Qed.

Lemma stripPrefix_prefix p (a b : jsstring) :
  stripPrefix p (a ++ b) = None -> stripPrefix p a = None.
Proof.
  revert a. induction p as [|x p IH]; intros a; simpl.
  - destruct (a ++ b); discriminate.
  - destruct a as [|y a]; simpl; [reflexivity|].
    case_bool_decide; [apply IH|reflexivity].
Qed.

Lemma startsWith_prefix p (a b : jsstring) :
  startsWith p (a ++ b) = false -> startsWith p a = false.
Proof.
  unfold startsWith. intros H.
  rewrite stripPrefix_prefix with (b := b); [reflexivity|].
  destruct (stripPrefix p (a ++ b)); [discriminate|reflexivity].
Qed.

Lemma dropWhileEnd_app p (a b : jsstring) :
  dropWhileEnd p b <> [] -> dropWhileEnd p (a ++ b) = a ++ dropWhileEnd p b.
Proof.
  unfold dropWhileEnd. intros H. rewrite rev_app_distr.
  assert (Hd : forall l m, dropWhile p l <> [] -> dropWhile p (l ++ m) = dropWhile p l ++ m).
  { clear. intros l m. induction l as [|x l IH]; simpl; [contradiction|].
    destruct (p x); [exact IH|reflexivity]. }
  rewrite Hd.
  - rewrite rev_app_distr, rev_involutive. reflexivity.
  - intros E. apply H. rewrite E. reflexivity.
Qed.

End TrimFacts.

(** X1: white space around the raw input never matters: an input whose
    trimmed form is not empty normalizes like its trimmed form. *)
Theorem normalize_ignores_outer_space (raw : jsstring) :
  trim raw <> [] -> normalizeRepoUrl raw = normalizeRepoUrl (trim raw).
Proof.
  intros Hne. unfold normalizeRepoUrl. rewrite trim_idem.
  destruct raw as [|c raw]; [contradiction Hne; reflexivity|].
  destruct (trim (c :: raw)); [contradiction|reflexivity].
Qed.

Lemma normalize_ignores_outer_space_witness :
  normalizeRepoUrl (js "  git@github.com:Org/Tool.git ")
  = normalizeRepoUrl (trim (js "  git@github.com:Org/Tool.git ")).
Proof.
  apply (normalize_ignores_outer_space (js "  git@github.com:Org/Tool.git ")).
  vm_compute. discriminate.
Defined.

Lemma blank_trim raw : forallb isWhiteSpace raw = true -> trim raw = [].
Proof.
  intros H. unfold trim.
  destruct (takeWhile_all isWhiteSpace raw) as [_ ->]; [|reflexivity].
  apply Forall_forall. intros c Hc. rewrite forallb_forall in H.
  apply H. apply list_elem_of_In. exact Hc.
Qed.

(** X2: a raw input made of white space only (the empty string included) is
    rejected by [resolveRepo]: it returns [null] at once, writes the one
    line that reports the invalid URL, and reads or writes neither the
    cache nor the disk, so it cannot throw. *)
Theorem blank_input_rejected (w : World) (raw : jsstring) (s : State) :
  forallb isWhiteSpace raw = true ->
  resolveRepo w raw s = Return None (withConsole s [LogInvalid raw]).
Proof.
  intros H. apply resolveRepo_invalid.
  destruct raw as [|c raw]; [left; reflexivity|right].
  unfold normalizeRepoUrl. rewrite (blank_trim _ H). reflexivity.
Qed.

Lemma blank_input_rejected_witness :
  resolveRepo noHomeWorld (js "   ") goneState
  = Return None (withConsole goneState [LogInvalid (js "   ")]).
Proof.
  apply (blank_input_rejected noHomeWorld (js "   ") goneState). reflexivity.
Defined.

Lemma dropWhile_nil p (l : jsstring) :
  dropWhile p l = [] -> Forall (fun c => p c = true) l.
Proof.
  induction l as [|c l IH]; simpl; [constructor|].
  destruct (p c) eqn:Ec; [|discriminate]. intros E. constructor; auto.
Qed.

Lemma trim_head_clean u a :
  head u = Some a -> isWhiteSpace a = false ->
  trim u = dropWhileEnd isWhiteSpace u /\ trim u <> [].
Proof.
  intros Hh Ha. destruct u as [|x u]; [discriminate|]. injection Hh as ->.
  unfold trim. simpl dropWhile. rewrite Ha. split; [reflexivity|].
  unfold dropWhileEnd. intros E.
  assert (E' : dropWhile isWhiteSpace (rev (a :: u)) = []).
  { rewrite <- (rev_involutive (dropWhile _ _)), E. reflexivity. }
  apply dropWhile_nil in E'. rewrite Forall_forall in E'.
  assert (Hin : a ∈ rev (a :: u)).
  { apply list_elem_of_In. apply -> in_rev. left. reflexivity. }
  specialize (E' _ Hin). congruence.
Qed.

(** The third form on an input without scheme and without [git@]. *)
Lemma normalize_schemeless u a :
  head u = Some a -> isWhiteSpace a = false ->
  startsWith (js "git@") u = false ->
  startsWith (js "http://") u = false ->
  startsWith (js "https://") u = false ->
  normalizeRepoUrl u
  = Some (toLowerCase (stripSlashes (stripDotGit (dropWhileEnd isWhiteSpace u)))).
Proof.
  intros Hh Ha Hg H1 H2.
  destruct (trim_head_clean u a Hh Ha) as [Ht Hne].
  destruct (dropWhileEnd_prefix isWhiteSpace u) as [b Hb].
  set (t := dropWhileEnd isWhiteSpace u) in *.
  assert (Hgt : startsWith (js "git@") t = false)
    by (apply (startsWith_prefix _ t b); rewrite <- Hb; exact Hg).
  assert (H1t : startsWith (js "http://") t = false)
    by (apply (startsWith_prefix _ t b); rewrite <- Hb; exact H1).
  assert (H2t : startsWith (js "https://") t = false)
    by (apply (startsWith_prefix _ t b); rewrite <- Hb; exact H2).
  unfold normalizeRepoUrl. destruct u as [|x u']; [discriminate|].
  rewrite Ht.
  assert (Haz : azureMatch t = None).
  { unfold azureMatch.
    destruct (stripPrefix (js "git@ssh.dev.azure.com:v3/") t) eqn:E; [|reflexivity].
    apply stripPrefix_Some in E. rewrite E in Hgt. discriminate. }
  assert (Hssh : sshMatch t = None).
  { unfold sshMatch. rewrite (startsWith_false _ _ Hgt). reflexivity. }
  rewrite Haz, Hssh. unfold stripScheme.
  rewrite (startsWith_false _ _ H1t), (startsWith_false _ _ H2t). reflexivity.
Qed.

(** X3: the scheme does not matter.  For an input [u] that starts with a
    character other than white space and with none of [git@], [http://],
    [https://], the URLs [https://u] and [http://u] normalize to what [u]
    normalizes to. *)
Theorem scheme_is_dropped (u : jsstring) (a : ascii) :
  head u = Some a -> isWhiteSpace a = false ->
  startsWith (js "git@") u = false ->
  startsWith (js "http://") u = false ->
  startsWith (js "https://") u = false ->
  normalizeRepoUrl (js "https://" ++ u) = normalizeRepoUrl u
  /\ normalizeRepoUrl (js "http://" ++ u) = normalizeRepoUrl u.
Proof.
  intros Hh Ha Hg H1 H2.
  rewrite (normalize_schemeless u a Hh Ha Hg H1 H2).
  destruct (trim_head_clean u a Hh Ha) as [Ht Hne]. rewrite Ht in Hne.
  assert (Hs : forall pre, head pre = Some "h"%char ->
            trim (pre ++ u) = pre ++ dropWhileEnd isWhiteSpace u).
  { intros pre Hp.
    destruct (trim_head_clean (pre ++ u) "h"%char) as [-> _];
      [destruct pre; [discriminate|exact Hp]|reflexivity|].
    apply dropWhileEnd_app. exact Hne. }
  split.
  - unfold normalizeRepoUrl.
    change (js "https://" ++ u) with ("h"%char :: js "ttps://" ++ u) at 1.
    cbv iota. change ("h"%char :: js "ttps://" ++ u) with (js "https://" ++ u).
    rewrite (Hs (js "https://")) by reflexivity.
    change (azureMatch (js "https://" ++ dropWhileEnd isWhiteSpace u)) with (@None jsstring).
    change (sshMatch (js "https://" ++ dropWhileEnd isWhiteSpace u))
      with (@None (jsstring * jsstring)).
    cbv iota zeta.
    change (stripScheme (js "https://" ++ dropWhileEnd isWhiteSpace u))
      with (dropWhileEnd isWhiteSpace u).
    reflexivity.
  - unfold normalizeRepoUrl.
    change (js "http://" ++ u) with ("h"%char :: js "ttp://" ++ u) at 1.
    cbv iota. change ("h"%char :: js "ttp://" ++ u) with (js "http://" ++ u).
    rewrite (Hs (js "http://")) by reflexivity.
    change (azureMatch (js "http://" ++ dropWhileEnd isWhiteSpace u)) with (@None jsstring).
    change (sshMatch (js "http://" ++ dropWhileEnd isWhiteSpace u))
      with (@None (jsstring * jsstring)).
    cbv iota zeta.
    change (stripScheme (js "http://" ++ dropWhileEnd isWhiteSpace u))
      with (dropWhileEnd isWhiteSpace u).
    reflexivity.
Qed.

Lemma scheme_is_dropped_witness :
  normalizeRepoUrl (js "https://" ++ js "GitLab.com/Group/Tool.git/ ")
  = normalizeRepoUrl (js "GitLab.com/Group/Tool.git/ ")
  /\ normalizeRepoUrl (js "http://" ++ js "GitLab.com/Group/Tool.git/ ")
     = normalizeRepoUrl (js "GitLab.com/Group/Tool.git/ ").
Proof.
  apply (scheme_is_dropped (js "GitLab.com/Group/Tool.git/ ") "G"%char);
    reflexivity.
Defined.

(** X4: the Azure shorthand wins over the generic SSH form.  For every rest
    free of line terminators that ends in a character other than white
    space, [git@ssh.dev.azure.com:v3/rest] normalizes to
    [dev.azure.com/rest] in lower case with a trailing [.git] removed: the
    [ssh.] of the host and the [v3/] are dropped. *)
Theorem azure_shorthand (rest : jsstring) (c : ascii) :
  Forall (fun x => isLineTerminator x = false) rest ->
  last rest = Some c -> isWhiteSpace c = false ->
  normalizeRepoUrl (js "git@ssh.dev.azure.com:v3/" ++ rest)
  = Some (stripDotGit (toLowerCase (js "dev.azure.com/" ++ rest))).
Proof.
  intros Hl Hlast Hc.
  set (u := js "git@ssh.dev.azure.com:v3/" ++ rest).
  assert (Ht : trim u = u).
  { apply (trim_id u "g"%char c); try reflexivity; try assumption.
    unfold u. rewrite last_app, Hlast. reflexivity. }
  assert (Haz : azureMatch u = Some rest).
  { unfold u, azureMatch. rewrite stripPrefix_app.
    apply dotPlus_all; [|exact Hl]. intros ->. discriminate. }
  unfold normalizeRepoUrl. destruct u as [|x u'] eqn:Ex; [discriminate|].
  rewrite Ht, Haz. reflexivity.
Qed.

Lemma azure_shorthand_witness :
  normalizeRepoUrl (js "git@ssh.dev.azure.com:v3/" ++ js "Org/Project/Repo.git")
  = Some (js "dev.azure.com/org/project/repo").
Proof.
  apply (azure_shorthand (js "Org/Project/Repo.git") "t"%char).
  - repeat constructor.
  - reflexivity.
  - reflexivity.
Defined.

(** X28: every identifier that [normalizeRepoUrl] returns is in lower
    case, whichever of its three forms the input took. *)
Theorem normalize_result_is_lowercase (x y : jsstring) :
  normalizeRepoUrl x = Some y -> toLowerCase y = y.
Proof. apply normalize_lowercase. Qed.

Lemma normalize_result_is_lowercase_witness :
  toLowerCase (js "dev.azure.com/org/project/repo")
  = js "dev.azure.com/org/project/repo".
Proof.
  apply (normalize_result_is_lowercase
           (js "git@ssh.dev.azure.com:v3/Org/Project/Repo")).
  reflexivity.
Defined.

Section RepoName.

Lemma splitOn_nonempty sep s : splitOn sep s <> [].
Proof.
  destruct s as [|c s]; simpl; [discriminate|].
  case_bool_decide; [discriminate|]. destruct (splitOn sep s); discriminate.
Qed.

Lemma last_default_cons (x : jsstring) l d :
  l <> [] -> List.last (x :: l) d = List.last l d.
Proof. destruct l; [contradiction|reflexivity]. Qed.

Lemma splitOn_join sep s : joinWith [sep] (splitOn sep s) = s.
Proof.
  induction s as [|c s IH]; simpl; [reflexivity|].
  case_bool_decide as Hc.
  - subst c. destruct (splitOn sep s) as [|seg segs] eqn:E;
      [exfalso; exact (splitOn_nonempty _ _ E)|].
    simpl in *. rewrite IH. reflexivity.
  - destruct (splitOn sep s) as [|seg segs] eqn:E;
      [exfalso; exact (splitOn_nonempty _ _ E)|].
    destruct segs; simpl in *; rewrite <- IH; reflexivity.
Qed.

Lemma splitOn_clean sep s : Forall (fun seg => sep ∉ seg) (splitOn sep s).
Proof.
  induction s as [|c s IH]; simpl.
  - constructor; [apply not_elem_of_nil|constructor].
  - case_bool_decide as Hc.
    + constructor; [apply not_elem_of_nil|exact IH].
    + destruct (splitOn sep s) as [|seg segs]; [repeat constructor|].
      * apply not_elem_of_cons. split; [congruence|apply not_elem_of_nil].
      * inversion IH; subst. constructor; [|assumption].
        apply not_elem_of_cons. split; [congruence|assumption].
Qed.

Lemma joinWith_last (sep : ascii) segs :
  segs <> [] ->
  joinWith [sep] segs = List.last segs []
  \/ exists p, joinWith [sep] segs = p ++ sep :: List.last segs [].
Proof.
  induction segs as [|x segs IH]; [contradiction|]. intros _.
  destruct segs as [|y segs]; [left; reflexivity|].
  right. change (List.last (x :: y :: segs) []) with (List.last (y :: segs) []).
  change (joinWith [sep] (x :: y :: segs)) with (x ++ sep :: joinWith [sep] (y :: segs)).
  destruct IH as [E|[p E]]; [discriminate| |].
  - exists x. rewrite E. reflexivity.
  - exists (x ++ sep :: p). rewrite E, <- app_assoc. reflexivity.
Qed.

End RepoName.

(** X5: the repository name that [extractRepoName] takes from a non-empty
    URL holds no slash, and the URL is that name or ends in a slash followed
    by it. *)
Theorem repo_name_is_last_segment (url : jsstring) :
  url <> [] ->
  exists repoName,
    extractRepoName url = Some repoName
    /\ ("/"%char ∉ repoName)
    /\ (url = repoName \/ exists p, url = p ++ js "/" ++ repoName).
Proof.
  intros Hne.
  exists (List.last (splitOn "/"%char url) []).
  split; [destruct url; [contradiction|reflexivity]|]. split.
  - pose proof (splitOn_clean "/"%char url) as Hc.
    pose proof (splitOn_nonempty "/"%char url) as Hn.
    destruct (exists_last Hn) as (init & l & E). rewrite E in *.
    rewrite last_last. apply Forall_app in Hc as [_ Hc]. inversion Hc; assumption.
  - destruct (joinWith_last "/"%char (splitOn "/"%char url)
                (splitOn_nonempty _ _)) as [E|[p E]];
      rewrite splitOn_join in E; [left|right; exists p]; exact E.
Qed.

Lemma repo_name_is_last_segment_witness :
  exists repoName,
    extractRepoName (js "dev.azure.com/org/project/repo") = Some repoName
    /\ ("/"%char ∉ repoName)
    /\ (js "dev.azure.com/org/project/repo" = repoName
        \/ exists p, js "dev.azure.com/org/project/repo" = p ++ js "/" ++ repoName).
Proof.
  apply (repo_name_is_last_segment (js "dev.azure.com/org/project/repo")).
  discriminate.
Defined.

Lemma splitOn_tail sep a r :
  sep ∉ r -> List.last (splitOn sep (a ++ sep :: r)) [] = r.
Proof.
  intros Hr.
  assert (Hr' : splitOn sep r = [r]).
  { induction r as [|c r IH]; [reflexivity|]. simpl.
    apply not_elem_of_cons in Hr as [Hc Hr].
    rewrite bool_decide_false by congruence. rewrite (IH Hr). reflexivity. }
  induction a as [|c a IH]; simpl.
  - rewrite bool_decide_true by reflexivity. rewrite Hr'. reflexivity.
  - case_bool_decide.
    + rewrite last_default_cons by apply splitOn_nonempty. exact IH.
    + destruct (splitOn sep (a ++ sep :: r)) as [|seg segs] eqn:E;
        [exfalso; exact (splitOn_nonempty _ _ E)|].
      destruct segs as [|s' segs'].
      * exfalso. pose proof (splitOn_join sep (a ++ sep :: r)) as J.
        rewrite E in J. simpl in J.
        pose proof (splitOn_clean sep (a ++ sep :: r)) as C. rewrite E in C.
        inversion C as [|? ? Hs _]; subst. apply Hs. rewrite J.
        apply elem_of_app. right. left.
      * exact IH.
Qed.

Lemma lowerChar_slash c : lowerChar c = "/"%char -> c = "/"%char.
Proof.
  destruct c as [[] [] [] [] [] [] [] []]; vm_compute; congruence.
Qed.

(** Every agreed spelling normalizes to the lower case of
    [host/owner/repo]. *)
Lemma agreed_spelling_normalizes (v : Spelling) (host owner repo : jsstring) :
  isPlainName host = true -> isPlainName owner = true ->
  isPlainName repo = true ->
  endsWith (js ".git") (toLowerCase repo) = false ->
  agreedSpelling v host owner = true ->
  normalizeRepoUrl (spell v host owner repo)
  = Some (toLowerCase (host ++ js "/" ++ owner ++ js "/" ++ repo)).
Proof.
  intros Hh Ho Hr Hg Hv. destruct v as [syn g n].
  unfold agreedSpelling in Hv. unfold spell.
  cbn [syntax dotGit trailingSlashes] in *.
  destruct syn.
  - apply andb_true_iff in Hv as [Hn Hv]. apply Nat.eqb_eq in Hn. subst n.
    apply normalize_ssh_spelling; assumption.
  - apply andb_true_iff in Hv as [Hn Hv]. apply Nat.eqb_eq in Hn. subst n.
    apply bool_decide_eq_true in Hv.
    apply normalize_azure_spelling; assumption.
  - rewrite <- (normalize_https host owner repo Hr Hg g n Hv). f_equal.
    unfold spellingRest. rewrite <- !app_assoc. reflexivity.
  - rewrite <- (normalize_http host owner repo Hr Hg g n Hv). f_equal.
    unfold spellingRest. rewrite <- !app_assoc. reflexivity.
  - rewrite <- (normalize_bare host owner repo Hh Ho Hr Hg g n Hv). f_equal.
    unfold spellingRest. rewrite <- !app_assoc. reflexivity.
Qed.

(** X6: whatever agreed spelling of [host/owner/repo] is resolved, the
    directory name the scan looks for is the repository name in lower
    case. *)
Theorem spelling_repo_name (v : Spelling) (host owner repo : jsstring) :
  isPlainName host = true -> isPlainName owner = true ->
  isPlainName repo = true ->
  endsWith (js ".git") (toLowerCase repo) = false ->
  agreedSpelling v host owner = true ->
  exists n,
    normalizeRepoUrl (spell v host owner repo) = Some n
    /\ extractRepoName n = Some (toLowerCase repo).
Proof.
  intros Hh Ho Hr Hg Hv. eexists. split.
  - apply agreed_spelling_normalizes; assumption.
  - replace (host ++ js "/" ++ owner ++ js "/" ++ repo)
      with ((host ++ js "/" ++ owner) ++ "/"%char :: repo)
      by (rewrite <- !app_assoc; reflexivity).
    rewrite toLowerCase_app.
    change (toLowerCase ("/"%char :: repo)) with ("/"%char :: toLowerCase repo).
    unfold extractRepoName.
    destruct (toLowerCase (host ++ js "/" ++ owner) ++ "/"%char :: toLowerCase repo)
      as [|x l] eqn:E; [destruct (toLowerCase (host ++ js "/" ++ owner)); discriminate|].
    rewrite <- E. f_equal. apply splitOn_tail.
    destruct (isPlainName_spec _ Hr) as [_ Hok].
    intros Hin. unfold toLowerCase in Hin. apply list_elem_of_fmap in Hin as (c & Hc & Hin).
    symmetry in Hc. apply lowerChar_slash in Hc. subst c.
    exact (okChar_slash _ Hok Hin).
Qed.

Lemma spelling_repo_name_witness :
  exists n,
    normalizeRepoUrl (js "git@GitHub.com:DataDog/Web-UI.git") = Some n
    /\ extractRepoName n = Some (js "web-ui").
Proof.
  exact (spelling_repo_name
           {| syntax := SshSyntax; dotGit := true; trailingSlashes := 0 |}
           (js "GitHub.com") (js "DataDog") (js "Web-UI")
           eq_refl eq_refl eq_refl eq_refl eq_refl).
Defined.

Section Remotes.

Lemma setAdd_elem urls u x : x ∈ setAdd urls u <-> x ∈ urls \/ x = u.
Proof.
  unfold setAdd. case_bool_decide as H.
  - split; [auto|]. intros [?| ->]; assumption.
  - rewrite elem_of_app, list_elem_of_singleton. reflexivity.
Qed.

Lemma setAdd_NoDup urls u : NoDup urls -> NoDup (setAdd urls u).
Proof.
  intros Hn. unfold setAdd. case_bool_decide as H; [exact Hn|].
  apply NoDup_app. split; [exact Hn|]. split.
  - intros x Hx Hx'. apply list_elem_of_singleton in Hx'. subst. contradiction.
  - apply NoDup_singleton.
Qed.

Lemma parse_fold (lines : list jsstring) (acc : list jsstring) :
  NoDup acc -> Forall (fun u => u <> []) acc ->
  let r := fold_left
             (fun urls line =>
                match splitWs false line with
                | _ :: ((_ :: _) as u) :: _ => setAdd urls u
                | _ => urls
                end) lines acc in
  NoDup r /\ Forall (fun u => u <> []) r
  /\ forall u, u ∈ r <->
       u ∈ acc \/ exists line f0 rest,
         line ∈ lines /\ splitWs false line = f0 :: u :: rest /\ u <> [].
Proof.
  revert acc. induction lines as [|line lines IH]; intros acc Hn Hf; simpl.
  - split; [exact Hn|]. split; [exact Hf|]. intros u. split; [auto|].
    intros [H|(l & f0 & rest & Hin & _)]; [exact H|inversion Hin].
  - set (acc' := match splitWs false line with
                 | _ :: ((_ :: _) as u) :: _ => setAdd acc u
                 | _ => acc
                 end).
    assert (Hn' : NoDup acc').
    { unfold acc'. destruct (splitWs false line) as [|f0 [|[|c u] rest]]; auto.
      apply setAdd_NoDup, Hn. }
    assert (Hf' : Forall (fun u => u <> []) acc').
    { unfold acc'. destruct (splitWs false line) as [|f0 [|[|c u] rest]]; auto.
      apply Forall_forall. intros x Hx. apply setAdd_elem in Hx as [Hx| ->];
        [rewrite Forall_forall in Hf; auto|discriminate]. }
    assert (He : forall u, u ∈ acc' <->
              u ∈ acc \/ exists f0 rest, splitWs false line = f0 :: u :: rest /\ u <> []).
    { intros u. unfold acc'.
      destruct (splitWs false line) as [|f0 [|[|c v] rest]].
      - split; [auto|]. intros [H|(? & ? & ? & _)]; [exact H|discriminate].
      - split; [auto|]. intros [H|(? & ? & ? & _)]; [exact H|discriminate].
      - split; [auto|]. intros [H|(? & ? & E & Hu)]; [exact H|].
        injection E as _ <- _. contradiction.
      - rewrite setAdd_elem. split.
        + intros [H| ->]; [auto|]. right. exists f0, rest. split; [reflexivity|discriminate].
        + intros [H|(? & ? & E & _)]; [auto|]. injection E as _ <- _. auto. }
    destruct (IH acc' Hn' Hf') as (R1 & R2 & R3).
    split; [exact R1|]. split; [exact R2|]. intros u. rewrite R3, He. split.
    + intros [[H|(f0 & rest & E & Hu)]|(l & f0 & rest & Hin & E & Hu)].
      * auto.
      * right. exists line, f0, rest. split; [left|auto].
      * right. exists l, f0, rest. split; [right; exact Hin|auto].
    + intros [H|(l & f0 & rest & Hin & E & Hu)]; [auto|].
      apply elem_of_cons in Hin as [-> |Hin].
      * left. right. eauto.
      * right. eauto 8.
Qed.

End Remotes.

(** X7: the remotes that [getRepoRemotes] reports are pairwise distinct and
    none is empty; they are the second fields of the lines that
    [git remote -v] printed, no more and no less; and when the command
    fails there are none. *)
Theorem remotes_are_second_fields (w : World) (dir : jsstring) :
  NoDup (getRepoRemotes w dir)
  /\ Forall (fun u => u <> []) (getRepoRemotes w dir)
  /\ (gitRemoteV w dir = None -> getRepoRemotes w dir = [])
  /\ (forall out u, gitRemoteV w dir = Some out ->
        (u ∈ getRepoRemotes w dir <->
         exists line f0 rest,
           line ∈ splitOn "010"%char out
           /\ splitWs false line = f0 :: u :: rest /\ u <> [])).
Proof.
  unfold getRepoRemotes. destruct (gitRemoteV w dir) as [out|].
  - destruct (parse_fold (splitOn "010"%char out) [] ltac:(constructor)
                ltac:(constructor)) as (R1 & R2 & R3).
    split; [exact R1|]. split; [exact R2|]. split; [discriminate|].
    intros out' u [= <-]. unfold parseRemotes. rewrite R3. split.
    + intros [H|H]; [inversion H|exact H].
    + auto.
  - split; [constructor|]. split; [constructor|]. split; [reflexivity|].
    discriminate.
Qed.

(** X8: what [cacheStore] stored, [cacheLookup] returns, when the cache
    file is missing, unparsable or an object of entries.  For a URL other
    than [__proto__], an existing path whose remotes, each normalized,
    contain the URL, and a writable cache file, the lookup that follows
    the store returns the stored path and writes the line of a cache
    hit.  (A cache file that parses to [null], a number, a string, a
    boolean or an array is not covered: there the store throws or loses the
    entry.) *)
Theorem store_then_lookup (w : World) (id p : jsstring) (s : State) :
  cacheWritable w = true -> id <> js "__proto__" ->
  existsSync w p = true ->
  includes (map normalizeRepoUrl (getRepoRemotes w p)) id = true ->
  exists s1 s2,
    cacheStore w id p s = Return tt s1
    /\ cacheLookup w id s1 = Return (Some p) s2
    /\ console s2 = console s ++ [LogCacheHit id p].
Proof.
  intros Hw Hid He Hi.
  unfold cacheStore, bind, loadCache, nowISO. rewrite (saveCache_ok w Hw).
  fold (loadedCache s). unfold setProp.
  rewrite (bool_decide_false _ Hid). cbn [andb console ticks].
  eexists. eexists. split; [reflexivity|].
  erewrite (cacheLookup_hit w Hw id _ {| path := p; lastUsed := _ |});
    [| apply lookup_insert_eq | exact He | exact Hi].
  split; reflexivity.
Qed.

Lemma store_then_lookup_witness :
  exists s1 s2,
    cacheStore depthWorld (js "github.com/org/my-repo") (js "/scan/a/b/my-repo")
      emptyState = Return tt s1
    /\ cacheLookup depthWorld (js "github.com/org/my-repo") s1
       = Return (Some (js "/scan/a/b/my-repo")) s2
    /\ console s2
       = console emptyState
         ++ [LogCacheHit (js "github.com/org/my-repo") (js "/scan/a/b/my-repo")].
Proof.
  apply (store_then_lookup depthWorld (js "github.com/org/my-repo")
           (js "/scan/a/b/my-repo") emptyState).
  - reflexivity.
  - discriminate.
  - vm_compute. reflexivity.
  - vm_compute. reflexivity.
Defined.

Lemma cacheLookup_some_inv (w : World) (id p : jsstring)
    (s s' : State) :
  cacheLookup w id s = Return (Some p) s' ->
  exists e,
    loadedCache s !! id = Some e /\ path e = p
    /\ existsSync w p = true
    /\ includes (map normalizeRepoUrl (getRepoRemotes w p)) id = true
    /\ loadedCache s' !! id
       = Some {| path := p; lastUsed := clock w (ticks s) |}.
Proof.
  unfold cacheLookup, bind, loadCache. fold (loadedCache s). unfold getProp.
  destruct (loadedCache s !! id) as [e|] eqn:Hm.
  - destruct (existsSync w (path e)) eqn:He; simpl.
    + destruct (includes _ id) eqn:Hi; simpl.
      * unfold nowISO, saveCache.
        destruct (cacheWritable w); [|destruct (failedWrite w); discriminate].
        unfold consoleLog, ret. intros [= <- <-].
        exists e. repeat split; try assumption.
        unfold loadedCache at 1. simpl. apply lookup_insert_eq.
      * unfold saveCache.
        destruct (cacheWritable w); [|destruct (failedWrite w)]; discriminate.
    + unfold saveCache.
      destruct (cacheWritable w); [|destruct (failedWrite w)]; discriminate.
  - case_bool_decide; [|discriminate].
    unfold saveCache.
    destruct (cacheWritable w); [|destruct (failedWrite w)]; discriminate.
Qed.


(** X9: the cache is a hint that is checked on every lookup.  A path that
    [cacheLookup] returns is the path of the entry stored for the URL, it
    exists, the remotes of that directory, each normalized, contain the
    URL, and the cache file afterwards holds the entry with the same path
    and the current time. *)
Theorem lookup_returns_checked_path (w : World) (id p : jsstring)
    (s s' : State) :
  cacheLookup w id s = Return (Some p) s' ->
  exists e,
    loadedCache s !! id = Some e /\ path e = p
    /\ existsSync w p = true
    /\ includes (map normalizeRepoUrl (getRepoRemotes w p)) id = true
    /\ loadedCache s' !! id
       = Some {| path := p; lastUsed := clock w (ticks s) |}.
Proof. apply cacheLookup_some_inv. Qed.

Lemma lookup_returns_checked_path_witness :
  exists e,
    loadedCache {| cacheFile := Some {[ js "github.com/org/my-repo" :=
                     {| path := js "/scan/a/b/my-repo"; lastUsed := js "then" |} ]};
                   console := []; ticks := 0 |} !! js "github.com/org/my-repo" = Some e
    /\ path e = js "/scan/a/b/my-repo"
    /\ existsSync depthWorld (js "/scan/a/b/my-repo") = true
    /\ includes (map normalizeRepoUrl
                   (getRepoRemotes depthWorld (js "/scan/a/b/my-repo")))
         (js "github.com/org/my-repo") = true
    /\ loadedCache
         {| cacheFile := Some (<[ js "github.com/org/my-repo" :=
                {| path := js "/scan/a/b/my-repo";
                   lastUsed := js "2026-01-01T00:00:00.000Z" |} ]>
              {[ js "github.com/org/my-repo" :=
                   {| path := js "/scan/a/b/my-repo"; lastUsed := js "then" |} ]});
            console := [LogCacheHit (js "github.com/org/my-repo")
                          (js "/scan/a/b/my-repo")];
            ticks := 1 |} !! js "github.com/org/my-repo"
       = Some {| path := js "/scan/a/b/my-repo";
                 lastUsed := clock depthWorld 0 |}.
Proof.
  apply (lookup_returns_checked_path depthWorld (js "github.com/org/my-repo")
           (js "/scan/a/b/my-repo")).
  vm_compute. reflexivity.
Defined.

Lemma cacheLookup_frame (w : World) (id k : jsstring) (s : State) :
  cutsCacheFile w = false -> k <> id ->
  loadedCache (finalState (cacheLookup w id s)) !! k = loadedCache s !! k.
Proof.
  intros Hcut Hk.
  unfold cacheLookup, bind, loadCache, saveCache, nowISO, consoleLog, ret.
  fold (loadedCache s). unfold cutsCacheFile in Hcut.
  destruct (getProp (loadedCache s) id) as [[e|]|]; [| |reflexivity].
  - destruct (negb (existsSync w (path e)));
      [|destruct (negb (includes _ id))];
      (destruct (cacheWritable w);
         [|destruct (failedWrite w) as [|[|]]; try discriminate Hcut]);
      try reflexivity;
      unfold loadedCache at 1; simpl;
      first [apply lookup_delete_ne; congruence
            |apply lookup_insert_ne; congruence].
  - (destruct (cacheWritable w);
       [|destruct (failedWrite w) as [|[|]]; try discriminate Hcut]);
      try reflexivity;
      unfold loadedCache at 1; simpl; apply lookup_delete_ne; congruence.
Qed.

(** A write that is cut short loses every entry: the lookup of the stale
    entry of [goneState] fails to write the file and leaves it empty, and
    the entry of another URL is gone with it. *)
Example cut_write_loses_entries :
  let s := {| cacheFile := Some (<[ js "github.com/org/my-repo" :=
                 {| path := js "/scan/a/b/my-repo"; lastUsed := js "then" |} ]>
               {[ js "github.com/gone/gone" := goneEntry ]});
              console := []; ticks := 0 |} in
  cutsCacheFile fullDiskWorld = true
  /\ loadedCache s !! js "github.com/org/my-repo"
     = Some {| path := js "/scan/a/b/my-repo"; lastUsed := js "then" |}
  /\ returned (cacheLookup fullDiskWorld (js "github.com/gone/gone") s) = None
  /\ loadedCache (finalState (cacheLookup fullDiskWorld (js "github.com/gone/gone") s))
       !! js "github.com/org/my-repo" = None.
Proof. vm_compute. repeat split. Qed.


(** X10: a lookup in a cache file that is missing, unparsable or an object
    of entries does not disturb the entries of the other URLs, unless a
    write of the cache file fails after the file was opened and leaves it
    cut short.  Whether the lookup hits, evicts, finds nothing, or its write
    is refused at the open, the cache file maps every other key to what it
    mapped it to before.  (A write that is cut short loses every entry:
    [cut_write_loses_entries].) *)
Theorem lookup_keeps_other_entries (w : World) (id k : jsstring) (s : State) :
  cutsCacheFile w = false -> k <> id ->
  loadedCache (finalState (cacheLookup w id s)) !! k = loadedCache s !! k.
Proof. apply cacheLookup_frame. Qed.

Lemma lookup_keeps_other_entries_witness :
  loadedCache (finalState (cacheLookup depthWorld (js "github.com/other/repo")
                             goneState)) !! js "github.com/gone/gone"
  = loadedCache goneState !! js "github.com/gone/gone".
Proof.
  apply (lookup_keeps_other_entries depthWorld (js "github.com/other/repo")
           (js "github.com/gone/gone") goneState).
  - reflexivity.
  - discriminate.
Defined.

(** X11: when the cache file is missing, unparsable or an object of
    entries, [cacheStore] of a URL other than [__proto__], with a writable
    cache file, makes the file map the URL to the given path and the
    current time, overwriting an older entry, and keeps every other entry;
    a missing or unparsable file counts as the empty mapping.  The console
    is not written.  (A cache file that parses to [null], a number, a
    string, a boolean or an array is not covered: there the store throws or
    loses the entry.) *)
Theorem store_sets_one_entry (w : World) (id p : jsstring) (s : State) :
  cacheWritable w = true -> id <> js "__proto__" ->
  exists s',
    cacheStore w id p s = Return tt s'
    /\ loadedCache s' !! id = Some {| path := p; lastUsed := clock w (ticks s) |}
    /\ (forall k, k <> id -> loadedCache s' !! k = loadedCache s !! k)
    /\ console s' = console s.
Proof.
  intros Hw Hid. unfold cacheStore, bind, loadCache, nowISO.
  rewrite (saveCache_ok w Hw). fold (loadedCache s). unfold setProp.
  rewrite (bool_decide_false _ Hid). cbn [andb].
  eexists. split; [reflexivity|]. unfold loadedCache at 1 2. cbn [cacheFile console ticks].
  split; [apply lookup_insert_eq|]. split; [|reflexivity].
  intros k Hk. apply lookup_insert_ne. congruence.
Qed.

Lemma store_sets_one_entry_witness :
  exists s',
    cacheStore depthWorld (js "github.com/org/my-repo") (js "/scan/a/b/my-repo")
      goneState = Return tt s'
    /\ loadedCache s' !! js "github.com/org/my-repo"
       = Some {| path := js "/scan/a/b/my-repo";
                 lastUsed := clock depthWorld (ticks goneState) |}
    /\ (forall k, k <> js "github.com/org/my-repo" ->
          loadedCache s' !! k = loadedCache goneState !! k)
    /\ console s' = console goneState.
Proof.
  apply (store_sets_one_entry depthWorld (js "github.com/org/my-repo")
           (js "/scan/a/b/my-repo") goneState).
  - reflexivity.
  - discriminate.
Defined.

Lemma pathUnder_snoc dir init n :
  pathUnder dir (init ++ [n]) = pathJoin (pathUnder dir init) n.
Proof. unfold pathUnder. rewrite fold_left_app. reflexivity. Qed.

Lemma last_snoc_names (l : list jsstring) n :
  last l = Some n -> exists init, l = init ++ [n].
Proof.
  intros H. destruct (exists_last (l:=l)) as [init [n' ->]].
  - intros ->. discriminate.
  - rewrite last_snoc in H. injection H as ->. eauto.
Qed.

(** X12: the scan returns checkouts only.  A path it returns is a directory
    whose name is the repository name of the URL up to case, which holds a
    [.git] entry, and whose remotes, each normalized, contain the URL. *)
Theorem scan_returns_checkout (w : World) (normalizedUrl : jsstring)
    (searchPaths : list jsstring) (maxDepth : Z) (p : jsstring) :
  scanForRepo w normalizedUrl searchPaths maxDepth = Some p ->
  exists repoName parent n,
    extractRepoName normalizedUrl = Some repoName
    /\ p = pathJoin parent n
    /\ toLowerCase n = repoName
    /\ existsSync w (pathJoin p (js ".git")) = true
    /\ includes (map normalizeRepoUrl (getRepoRemotes w p)) normalizedUrl = true.
Proof.
  intros H. apply scanForRepo_sound in H
    as (rn & raw & names & E & _ & Hne & -> & (_ & (n & Hl & Hn) & Hc) & _).
  apply last_snoc_names in Hl as (init & ->).
  apply andb_true_iff in Hc as [Hc1 Hc2].
  exists rn, (pathUnder (expandHome w raw) init), n.
  rewrite <- pathUnder_snoc. repeat split; assumption.
Qed.

Lemma scan_returns_checkout_witness :
  exists repoName parent n,
    extractRepoName (js "github.com/org/my-repo") = Some repoName
    /\ js "/scan/a/b/my-repo" = pathJoin parent n
    /\ toLowerCase n = repoName
    /\ existsSync depthWorld (pathJoin (js "/scan/a/b/my-repo") (js ".git")) = true
    /\ includes (map normalizeRepoUrl
                   (getRepoRemotes depthWorld (js "/scan/a/b/my-repo")))
         (js "github.com/org/my-repo") = true.
Proof.
  apply (scan_returns_checkout depthWorld (js "github.com/org/my-repo")
           [js "/scan"] 2 (js "/scan/a/b/my-repo")).
  vm_compute. reflexivity.
Defined.

(** X13: the scan returns a path exactly when some listed root has a
    checkout of the URL at most [maxDepth + 1] descents below it, reached
    through directories outside the Skip-Set. *)
Theorem scan_finds_iff_checkout_in_reach (w : World) (normalizedUrl : jsstring)
    (searchPaths : list jsstring) (maxDepth : Z) :
  truthy (scanForRepo w normalizedUrl searchPaths maxDepth) = true
  <-> exists repoName raw names,
        extractRepoName normalizedUrl = Some repoName /\ repoName <> []
        /\ raw ∈ searchPaths /\ names <> []
        /\ checkoutBelow w normalizedUrl repoName (expandHome w raw) names
        /\ (Z.of_nat (length names) <= maxDepth + 1)%Z.
Proof.
  split.
  - intros Ht. apply truthy_Some in Ht as (p & Hp & _).
    pose proof Hp as Hp'. apply scanForRepo_sound in Hp
      as (rn & raw & names & E & Hin & Hne & _ & Hc & Hlen).
    exists rn, raw, names. repeat split; try assumption; try apply Hc.
    intros ->. unfold scanForRepo in Hp'. rewrite E in Hp'. discriminate.
  - intros (rn & raw & names & E & Hrn & Hin & Hne & Hc & Hlen).
    eapply scanForRepo_complete; eassumption.
Qed.

(** X14: first match wins across the roots.  The scan of a list of roots is
    the scan of its first part when that returns a path, and the scan of
    the rest otherwise. *)
Theorem scan_roots_in_order (w : World) (normalizedUrl : jsstring)
    (roots1 roots2 : list jsstring) (maxDepth : Z) :
  scanForRepo w normalizedUrl (roots1 ++ roots2) maxDepth
  = match scanForRepo w normalizedUrl roots1 maxDepth with
    | Some p => Some p
    | None => scanForRepo w normalizedUrl roots2 maxDepth
    end.
Proof.
  unfold scanForRepo.
  destruct (extractRepoName normalizedUrl) as [[|c rn]|]; try reflexivity.
  induction roots1 as [|raw roots1 IH]; simpl; [reflexivity|].
  destruct (walkDir w (expandHome w raw) (c :: rn) normalizedUrl 0 maxDepth)
    as [[|x p]|]; simpl; try exact IH. reflexivity.
Qed.

(** X15: a larger [maxDepth] never loses a result: when the scan returns a
    path at one depth it returns a path at every larger depth. *)
Theorem scan_monotone_in_depth (w : World) (normalizedUrl : jsstring)
    (searchPaths : list jsstring) (d d' : Z) :
  (d <= d')%Z ->
  truthy (scanForRepo w normalizedUrl searchPaths d) = true ->
  truthy (scanForRepo w normalizedUrl searchPaths d') = true.
Proof.
  intros Hd Ht. apply truthy_Some in Ht as (p & Hp & _).
  pose proof Hp as Hp'. apply scanForRepo_sound in Hp
    as (rn & raw & names & E & Hin & Hne & _ & Hc & Hlen).
  eapply scanForRepo_complete; try eassumption; [|lia].
  intros ->. unfold scanForRepo in Hp'. rewrite E in Hp'. discriminate.
Qed.

Lemma scan_monotone_in_depth_witness :
  truthy (scanForRepo depthWorld (js "github.com/org/my-repo") [js "/scan"] 7)
  = true.
Proof.
  apply (scan_monotone_in_depth depthWorld (js "github.com/org/my-repo")
           [js "/scan"] 2 7).
  - lia.
  - vm_compute. reflexivity.
Defined.

(** X16: a negative [maxDepth] or a search root that cannot be read gives
    no result, and no error: the scan of such a root returns [null]. *)
Theorem scan_of_unreadable_root (w : World) (normalizedUrl raw : jsstring)
    (maxDepth : Z) :
  (maxDepth < 0)%Z \/ readdirSync w (expandHome w raw) = None ->
  scanForRepo w normalizedUrl [raw] maxDepth = None.
Proof.
  intros H. unfold scanForRepo.
  destruct (extractRepoName normalizedUrl) as [[|c rn]|]; try reflexivity.
  simpl. rewrite walkDir_unfold.
  destruct (0 >? maxDepth)%Z eqn:E; [reflexivity|].
  destruct H as [H|H]; [lia|]. rewrite H. reflexivity.
Qed.

Lemma scan_of_unreadable_root_witness :
  scanForRepo depthWorld (js "github.com/org/my-repo") [js "/tmp/no-such-dir-xyz"] 2
  = None
  /\ scanForRepo depthWorld (js "github.com/org/my-repo") [js "/scan"] (-1) = None.
Proof.
  split.
  - apply (scan_of_unreadable_root depthWorld (js "github.com/org/my-repo")
             (js "/tmp/no-such-dir-xyz") 2).
    right. reflexivity.
  - apply (scan_of_unreadable_root depthWorld (js "github.com/org/my-repo")
             (js "/scan") (-1)).
    left. lia.
Defined.

Section ResolveFacts.

Variable w : World.

(** Where a path that [resolveRepo] returns comes from: a checked cache
    entry, or a checkout that the scan found and [cacheStore] wrote. *)
Lemma resolveRepo_some_inv raw s p s1 :
  resolveRepo w raw s = Return (Some p) s1 ->
  exists n,
    normalizeRepoUrl raw = Some n /\ n <> [] /\ p <> []
    /\ includes (map normalizeRepoUrl (getRepoRemotes w p)) n = true
    /\ ((existsSync w p = true
         /\ exists t, loadedCache s1 !! n = Some {| path := p; lastUsed := t |})
        \/ (isCheckoutOf w n p = true /\ cacheWritable w = true
            /\ exists m t, cacheFile s1
                           = Some (setProp m n {| path := p; lastUsed := t |}))).
Proof.
  unfold resolveRepo.
  destruct (normalizeRepoUrl raw) as [[|c n]|] eqn:Hn; try discriminate.
  unfold bind at 1. unfold consoleLog at 1. unfold bind at 1.
  destruct (cacheLookup w (c :: n) _) as [cached sA|sA] eqn:Hlk; [|discriminate].
  destruct (truthy cached) eqn:Ht.
  - unfold ret. intros [= -> <-].
    apply truthy_Some in Ht as (q & [= <-] & Hq).
    apply cacheLookup_some_inv in Hlk as (e & _ & _ & He & Hi & Hs).
    exists (c :: n). repeat split; try assumption; try discriminate.
    left. split; [exact He|eauto].
  - unfold bind at 1. unfold consoleLog at 1.
    destruct (scanForRepo w (c :: n) _ _) as [[|y r]|] eqn:Hscan; try discriminate.
    unfold bind at 1. unfold consoleLog at 1. unfold bind at 1.
    unfold cacheStore, bind, loadCache, nowISO, saveCache.
    destruct (cacheWritable w) eqn:Hw; [|destruct (failedWrite w); discriminate].
    unfold ret. intros [= <- <-].
    apply scanForRepo_sound in Hscan
      as (rn & raw' & names & _ & _ & _ & Hp & (_ & _ & Hc) & _).
    rewrite <- Hp in Hc.
    exists (c :: n). repeat split; try assumption; try discriminate.
    + apply andb_true_iff in Hc as [_ Hc]. exact Hc.
    + right. split; [exact Hc|]. split; [reflexivity|]. eauto.
Qed.

Lemma setProp_frame (m : gmap jsstring Entry) id e k :
  k <> id -> setProp m id e !! k = m !! k.
Proof.
  intros Hk. unfold setProp.
  destruct (bool_decide (id = js "__proto__") && bool_decide (m !! id = None));
    [reflexivity|]. apply lookup_insert_ne. congruence.
Qed.

Lemma resolveRepo_frame raw s k :
  cutsCacheFile w = false ->
  normalizeRepoUrl raw <> Some k ->
  loadedCache (finalState (resolveRepo w raw s)) !! k = loadedCache s !! k.
Proof.
  intros Hcut Hk. unfold resolveRepo.
  destruct (normalizeRepoUrl raw) as [[|c n]|] eqn:Hn; try reflexivity.
  assert (Hkn : k <> c :: n) by congruence.
  unfold bind at 1. unfold consoleLog at 1. unfold bind at 1.
  pose proof (cacheLookup_frame w (c :: n) k
                {| cacheFile := cacheFile s;
                   console := console s ++ [LogResolving (c :: n)];
                   ticks := ticks s |} Hcut Hkn) as Hf.
  destruct (cacheLookup w (c :: n) _) as [cached sA|sA]; simpl in Hf;
    [|exact Hf].
  destruct (truthy cached); [exact Hf|].
  unfold bind at 1. unfold consoleLog at 1.
  destruct (scanForRepo w (c :: n) _ _) as [[|y r]|]; try exact Hf.
  unfold bind at 1. unfold consoleLog at 1. unfold bind at 1.
  unfold cacheStore, bind, loadCache, nowISO, saveCache.
  unfold cutsCacheFile in Hcut.
  destruct (cacheWritable w);
    [|destruct (failedWrite w) as [|[|]]; try discriminate Hcut; try exact Hf];
    unfold ret, finalState, loadedCache at 1; cbn [cacheFile];
    rewrite setProp_frame by exact Hkn; exact Hf.
Qed.

End ResolveFacts.

(** X17: [resolveRepo] never hands out a directory of another repository.
    A path it returns is not empty, and the remotes of that directory, each
    normalized, contain the normalized form of the raw input, whether the
    path came from the cache or from the scan. *)
Theorem resolve_returns_matching_checkout (w : World) (raw p : jsstring)
    (s s1 : State) :
  resolveRepo w raw s = Return (Some p) s1 ->
  exists n,
    normalizeRepoUrl raw = Some n /\ n <> [] /\ p <> []
    /\ includes (map normalizeRepoUrl (getRepoRemotes w p)) n = true.
Proof.
  intros H. apply resolveRepo_some_inv in H as (n & H1 & H2 & H3 & H4 & _).
  exists n. auto.
Qed.

Lemma resolve_returns_matching_checkout_witness :
  exists n,
    normalizeRepoUrl (js "git@github.com:Org/my-repo.git") = Some n
    /\ n <> [] /\ js "/scan/a/b/my-repo" <> []
    /\ includes (map normalizeRepoUrl
                   (getRepoRemotes zeroDepthWorld (js "/scan/a/b/my-repo"))) n
       = true.
Proof.
  eapply (resolve_returns_matching_checkout zeroDepthWorld
            (js "git@github.com:Org/my-repo.git") (js "/scan/a/b/my-repo")
            emptyState).
  vm_compute. reflexivity.
Defined.

(** X18: with a cache file that is missing, unparsable or an object of
    entries, resolving one repository leaves the cache entries of all
    others alone, unless a write of the cache file fails after the file was
    opened and leaves it cut short.  Whatever else the call does (hit,
    eviction, scan, store, a write refused at the open), the cache file maps
    every key other than the normalized URL to what it mapped it to
    before. *)
Theorem resolve_keeps_other_entries (w : World) (raw k : jsstring) (s : State) :
  cutsCacheFile w = false ->
  normalizeRepoUrl raw <> Some k ->
  loadedCache (finalState (resolveRepo w raw s)) !! k = loadedCache s !! k.
Proof. apply resolveRepo_frame. Qed.

Lemma resolve_keeps_other_entries_witness :
  loadedCache (finalState (resolveRepo zeroDepthWorld
                             (js "git@github.com:Org/my-repo.git") goneState))
    !! js "github.com/gone/gone"
  = loadedCache goneState !! js "github.com/gone/gone".
Proof.
  apply (resolve_keeps_other_entries zeroDepthWorld
           (js "git@github.com:Org/my-repo.git") (js "github.com/gone/gone")
           goneState).
  - reflexivity.
  - vm_compute. discriminate.
Defined.

(** X19: a resolution that succeeded is served from the cache the next
    time, when the cache file is missing, unparsable or an object of
    entries.  When [resolveRepo] returned a path and the cache file is
    writable, the same call in the state it left returns the same path as a
    cache hit, without a scan: it writes the two lines of a hit only.  The
    disk is taken to hold the parent of every [.git] entry it holds, and
    the normalized URL not to be [__proto__].  (A cache file that parses to
    a number, a string, a boolean or an array is not covered: there nothing
    is stored and the second call scans again.) *)
Theorem resolve_again_hits_cache (w : World) (raw p : jsstring) (s s1 : State) :
  cacheWritable w = true ->
  (forall q, existsSync w (pathJoin q (js ".git")) = true ->
             existsSync w q = true) ->
  normalizeRepoUrl raw <> Some (js "__proto__") ->
  resolveRepo w raw s = Return (Some p) s1 ->
  exists n s2,
    normalizeRepoUrl raw = Some n
    /\ resolveRepo w raw s1 = Return (Some p) s2
    /\ console s2 = console s1 ++ [LogResolving n; LogCacheHit n p].
Proof.
  intros Hw Hdisk Hproto H.
  apply resolveRepo_some_inv in H as (n & Hn & Hne & Hp & Hi & Hsrc).
  assert (Hentry : existsSync w p = true
            /\ exists t, loadedCache s1 !! n = Some {| path := p; lastUsed := t |}).
  { destruct Hsrc as [Hhit|(Hc & _ & m & t & Hfile)]; [exact Hhit|].
    apply andb_true_iff in Hc as [Hgit _]. split; [apply Hdisk, Hgit|].
    exists t. unfold loadedCache. rewrite Hfile. unfold setProp.
    rewrite bool_decide_false by congruence. apply lookup_insert_eq. }
  destruct Hentry as (He & t & Hl).
  exists n. unfold resolveRepo. rewrite Hn.
  destruct n as [|c n']; [contradiction|].
  unfold bind at 1. unfold consoleLog at 1. unfold bind at 1.
  erewrite (cacheLookup_hit w Hw (c :: n') _ {| path := p; lastUsed := t |});
    [|exact Hl|exact He|exact Hi].
  cbn [path]. destruct p as [|x p']; [contradiction|]. cbn [truthy].
  unfold ret. eexists. split; [reflexivity|]. split; [reflexivity|].
  cbn [console]. rewrite <- app_assoc. reflexivity.
Qed.

Lemma zeroDepthWorld_disk q :
  existsSync zeroDepthWorld (pathJoin q (js ".git")) = true ->
  existsSync zeroDepthWorld q = true.
Proof.
  unfold zeroDepthWorld, depthWorld, tableWorld. cbn [existsSync].
  intros H. apply bool_decide_eq_true in H. apply bool_decide_eq_true.
  apply list_elem_of_In in H. apply list_elem_of_In.
  simpl in H. unfold pathJoin in H.
  repeat (destruct H as [H|H];
          [try (apply (f_equal (@rev ascii)) in H;
                rewrite !rev_app_distr in H; simpl in H;
                first [discriminate H
                      | injection H as H;
                        apply (f_equal (@rev ascii)) in H;
                        rewrite rev_involutive in H; subst q;
                        vm_compute; tauto])|]).
  contradiction.
Qed.

Lemma resolve_again_hits_cache_witness :
  exists n s2,
    normalizeRepoUrl (js "git@github.com:Org/my-repo.git") = Some n
    /\ resolveRepo zeroDepthWorld (js "git@github.com:Org/my-repo.git")
         (finalState (resolveRepo zeroDepthWorld
                        (js "git@github.com:Org/my-repo.git") emptyState))
       = Return (Some (js "/scan/a/b/my-repo")) s2
    /\ console s2
       = console (finalState (resolveRepo zeroDepthWorld
                                (js "git@github.com:Org/my-repo.git") emptyState))
         ++ [LogResolving n; LogCacheHit n (js "/scan/a/b/my-repo")].
Proof.
  apply (resolve_again_hits_cache zeroDepthWorld
           (js "git@github.com:Org/my-repo.git") (js "/scan/a/b/my-repo")
           emptyState).
  - reflexivity.
  - exact zeroDepthWorld_disk.
  - vm_compute. discriminate.
  - vm_compute. reflexivity.
Defined.

Example base64_hello :
  Terminal.base64 (Terminal.utf8 (js "Fix this error")) = js "Rml4IHRoaXMgZXJyb3I=".
Proof. vm_compute. reflexivity. Qed.

Example base64_latin :
  Terminal.base64 (Terminal.utf8 ["233"%char]) = js "w6k=".
Proof. vm_compute. reflexivity. Qed.

Example buildPrompt_full :
  PromptBuilder.buildPrompt
    {| PromptBuilder.message := Some (js "x is undefined");
       PromptBuilder.file := Some (js "src/a.js");
       PromptBuilder.line := Some (js "42") |}
  = js "Fix this error in src/a.js:42 - x is undefined".
Proof. vm_compute. reflexivity. Qed.

(** X20: the prompt of [buildPrompt] always starts with "Fix this error";
    a message that is given is appended to the prompt without message,
    after " - "; and a line number shows only together with a file:
    without a file the line is ignored. *)
Theorem prompt_shape (context : PromptBuilder.Context) :
  (exists rest, PromptBuilder.buildPrompt context = js "Fix this error" ++ rest)
  /\ (forall m, given (PromptBuilder.message context) = Some m ->
        PromptBuilder.buildPrompt context
        = PromptBuilder.buildPrompt
            {| PromptBuilder.message := None;
               PromptBuilder.file := PromptBuilder.file context;
               PromptBuilder.line := PromptBuilder.line context |}
          ++ js " - " ++ m)
  /\ (given (PromptBuilder.file context) = None ->
        PromptBuilder.buildPrompt context
        = PromptBuilder.buildPrompt
            {| PromptBuilder.message := PromptBuilder.message context;
               PromptBuilder.file := None;
               PromptBuilder.line := None |}).
Proof.
  destruct context as [m f l]. unfold PromptBuilder.buildPrompt.
  cbn [PromptBuilder.message PromptBuilder.file PromptBuilder.line given].
  split; [|split].
  - destruct (given f) as [f'|]; [destruct (given l) as [l'|]|];
      destruct (given m) as [m'|]; cbn [app joinWith js list_ascii_of_string];
      eexists; reflexivity.
  - intros m' Hm. rewrite Hm.
    destruct (given f) as [f'|]; [destruct (given l) as [l'|]|];
      cbn [app joinWith]; rewrite <- ?app_assoc; reflexivity.
  - intros Hf. rewrite Hf. reflexivity.
Qed.

Lemma prompt_shape_witness :
  (exists rest,
     PromptBuilder.buildPrompt
       {| PromptBuilder.message := Some (js "boom");
          PromptBuilder.file := None;
          PromptBuilder.line := Some (js "12") |}
     = js "Fix this error" ++ rest)
  /\ (forall m, given (Some (js "boom")) = Some m ->
        PromptBuilder.buildPrompt
          {| PromptBuilder.message := Some (js "boom");
             PromptBuilder.file := None;
             PromptBuilder.line := Some (js "12") |}
        = PromptBuilder.buildPrompt
            {| PromptBuilder.message := None;
               PromptBuilder.file := None;
               PromptBuilder.line := Some (js "12") |}
          ++ js " - " ++ m)
  /\ (given None = None ->
        PromptBuilder.buildPrompt
          {| PromptBuilder.message := Some (js "boom");
             PromptBuilder.file := None;
             PromptBuilder.line := Some (js "12") |}
        = PromptBuilder.buildPrompt
            {| PromptBuilder.message := Some (js "boom");
               PromptBuilder.file := None;
               PromptBuilder.line := None |}).
Proof.
  exact (prompt_shape {| PromptBuilder.message := Some (js "boom");
                         PromptBuilder.file := None;
                         PromptBuilder.line := Some (js "12") |}).
Defined.

Section Base64.










End Base64.


Lemma lookupPath_key {A} (t : list (jsstring * A)) p v :
  lookupPath t p = Some v -> p ∈ map fst t.
Proof.
  unfold lookupPath. destruct (find _ t) as [e|] eqn:E; [|discriminate].
  intros _. apply find_some in E as [Hin He].
  apply bool_decide_eq_true in He. subst p.
  apply list_elem_of_In. apply in_map. exact Hin.
Qed.

Lemma isTerminalAvailable_inv (platform terminal : jsstring)
    (accessSync : jsstring -> bool) :
  Terminal.isTerminalAvailable platform terminal accessSync = true ->
  platform = js "darwin"
  /\ Terminal.launcherFor terminal = Terminal.OwnLauncher terminal.
Proof.
  unfold Terminal.isTerminalAvailable, eqb.
  case_bool_decide as Hp; simpl; [|discriminate].
  intros H. split; [exact Hp|].
  assert (Hin : terminal ∈ Terminal.launcherNames).
  { case_bool_decide as Ht.
    - subst terminal. left.
    - destruct (lookupPath Terminal.appPaths terminal) as [appPath|] eqn:E;
        [|discriminate].
      apply lookupPath_key in E. apply list_elem_of_In in E. simpl in E.
      apply list_elem_of_In. simpl. tauto. }
  unfold Terminal.launcherFor. rewrite bool_decide_true by exact Hin. reflexivity.
Qed.


(** X22: a terminal that [isTerminalAvailable] reports is one that
    [spawnTerminal] can launch: the platform is macOS and the name is a key
    of [launchers].  In particular nothing is available off macOS, and no
    unknown name or member of [Object.prototype] ever is. *)
Theorem available_terminal_has_launcher (platform terminal : jsstring)
    (accessSync : jsstring -> bool) :
  Terminal.isTerminalAvailable platform terminal accessSync = true ->
  platform = js "darwin"
  /\ Terminal.launcherFor terminal = Terminal.OwnLauncher terminal.
Proof. apply isTerminalAvailable_inv. Qed.

Lemma available_terminal_has_launcher_witness :
  js "darwin" = js "darwin"
  /\ Terminal.launcherFor (js "Kitty") = Terminal.OwnLauncher (js "Kitty").
Proof.
  apply (available_terminal_has_launcher (js "darwin") (js "Kitty")
           (fun p => eqb p (js "/Applications/kitty.app"))).
  vm_compute. reflexivity.
Defined.

Section ServerFacts.

Variable d : Server.Daemon.

Lemma sendJson_cors code b h :
  h ∈ Server.corsHeaders -> h ∈ Server.headers (Server.sendJson code b).
Proof. intros H. right. exact H. Qed.

Lemma handleFix_cases data :
  let r := Server.handleFix d data in
  (forall h, h ∈ Server.corsHeaders -> h ∈ Server.headers (fst r))
  /\ ((Server.statusCode (fst r) = 400 /\ snd r = None /\ given data = None)
      \/ (Server.statusCode (fst r) = 500 /\ snd r = None
          /\ exists x m, given data = Some x
                         /\ Server.fetchDatadogPrompt d x = inr m
                         /\ Server.body (fst r) = Server.ErrorBody m)
      \/ (Server.statusCode (fst r) = 200
          /\ exists x p, given data = Some x
                         /\ Server.fetchDatadogPrompt d x = inl p
                         /\ snd r = Some (Server.metaPrompt p))).
Proof.
  unfold Server.handleFix. destruct (given data) as [x|].
  - destruct (Server.fetchDatadogPrompt d x) as [p|m] eqn:E; simpl.
    + split; [intros h H; right; exact H|]. right. right.
      split; [reflexivity|]. exists x, p. auto.
    + split; [intros h H; right; exact H|]. right. left.
      split; [reflexivity|]. split; [reflexivity|]. exists x, m. auto.
  - simpl. split; [intros h H; right; exact H|]. left. auto.
Qed.

End ServerFacts.

Lemma requestHandler_answers (d : Server.Daemon) (method pathname : jsstring)
    (data : option jsstring) :
  let r := fst (Server.requestHandler d method pathname data) in
  (forall h, h ∈ Server.corsHeaders -> h ∈ Server.headers r)
  /\ Server.statusCode r ∈ [204; 200; 400; 404; 500]
  /\ (method = js "OPTIONS" ->
      Server.statusCode r = 204 /\ Server.body r = Server.NoBody)
  /\ (method <> js "OPTIONS" ->
      method <> js "GET"
      \/ (pathname <> js "/dd/claude-fix" /\ pathname <> js "/dd/health") ->
      Server.statusCode r = 404
      /\ Server.body r = Server.ErrorBody (js "Not found")).
Proof.
  unfold Server.requestHandler, eqb.
  destruct (bool_decide (method = js "OPTIONS")) eqn:Ho;
    [apply bool_decide_eq_true in Ho|apply bool_decide_eq_false in Ho].
  { simpl. split; [auto|]. split; [left|]. split; [auto|]. contradiction. }
  destruct (bool_decide (pathname = js "/dd/claude-fix")) eqn:Hf;
    [apply bool_decide_eq_true in Hf|apply bool_decide_eq_false in Hf];
  (destruct (bool_decide (method = js "GET")) eqn:Hg;
    [apply bool_decide_eq_true in Hg|apply bool_decide_eq_false in Hg]);
  (destruct (bool_decide (pathname = js "/dd/health")) eqn:Hh;
    [apply bool_decide_eq_true in Hh|apply bool_decide_eq_false in Hh]);
  cbn [andb fst].
  1, 2: destruct (handleFix_cases d data) as [Hc Hs];
    (split; [exact Hc|]);
    (split; [destruct Hs as [(-> & _)|[(-> & _)|(-> & _)]];
             apply list_elem_of_In; simpl; auto 10|]);
    (split; [contradiction|]); intros _ [H|[H _]]; contradiction.
  all: simpl; (split; [intros h H; right; exact H|]);
    (split; [apply list_elem_of_In; simpl; auto 10|]);
    (split; [contradiction|]); try (intros; split; reflexivity).
  intros _ [H|[_ H]]; contradiction.
Qed.

(** X23: a request whose URL does not parse ([new URL] throws) gets no
    response from [requestHandler], whatever its method, [OPTIONS]
    included.  For a request whose URL parses, the response carries the
    three CORS headers and one of the status codes 204, 200, 400, 404 and
    500: an [OPTIONS] request is answered 204 without body on every path;
    and a request whose method is neither [GET] nor [OPTIONS], or whose
    path is neither [/dd/claude-fix] nor [/dd/health], is answered 404.
    (The exchange with Datadog is taken to settle.) *)
Theorem request_handler_answers (d : Server.Daemon) (method : jsstring) :
  Server.handleRequest d method None = None
  /\ forall pathname data,
       exists r spawn,
         Server.handleRequest d method (Some (pathname, data)) = Some (r, spawn)
         /\ (forall h, h ∈ Server.corsHeaders -> h ∈ Server.headers r)
         /\ Server.statusCode r ∈ [204; 200; 400; 404; 500]
         /\ (method = js "OPTIONS" ->
             Server.statusCode r = 204 /\ Server.body r = Server.NoBody)
         /\ (method <> js "OPTIONS" ->
             method <> js "GET"
             \/ (pathname <> js "/dd/claude-fix" /\ pathname <> js "/dd/health") ->
             Server.statusCode r = 404
             /\ Server.body r = Server.ErrorBody (js "Not found")).
Proof.
  split; [reflexivity|]. intros pathname data.
  exists (fst (Server.requestHandler d method pathname data)),
         (snd (Server.requestHandler d method pathname data)).
  split; [|apply requestHandler_answers].
  unfold Server.handleRequest.
  destruct (Server.requestHandler d method pathname data). reflexivity.
Qed.

(** X24: a terminal is spawned only by a [GET] of [/dd/claude-fix] with a
    non-empty [data] parameter whose recommendation was fetched, and only
    together with the answer 200; the prompt it gets is the fetched
    recommendation inside the meta-prompt.  No other request, no missing
    parameter and no failed fetch spawns anything. *)
Theorem spawn_only_after_fetch (d : Server.Daemon) (method pathname : jsstring)
    (data : option jsstring) (prompt : jsstring) :
  snd (Server.requestHandler d method pathname data) = Some prompt ->
  method = js "GET" /\ pathname = js "/dd/claude-fix"
  /\ Server.statusCode (fst (Server.requestHandler d method pathname data)) = 200
  /\ exists x p,
       given data = Some x
       /\ Server.fetchDatadogPrompt d x = inl p
       /\ prompt = Server.metaPrompt p.
Proof.
  unfold Server.requestHandler, eqb.
  case_bool_decide as Hopt; [discriminate|].
  case_bool_decide as Hfix; case_bool_decide as Hget; cbn [andb];
    try (case_bool_decide; cbn [andb]; discriminate).
  intros H. destruct (handleFix_cases d data) as [_ Hs].
  destruct Hs as [(_ & Hn & _)|[(_ & Hn & _)|(Hst & x & p & Hx & Hf & Hp)]];
    [rewrite Hn in H; discriminate..|].
  rewrite Hp in H. injection H as <-. repeat split; eauto.
Qed.

Lemma spawn_only_after_fetch_witness :
  js "GET" = js "GET" /\ js "/dd/claude-fix" = js "/dd/claude-fix"
  /\ Server.statusCode
       (fst (Server.requestHandler keyedDaemon (js "GET") (js "/dd/claude-fix")
               (Some (js "eyJpZCI6IjEifQ")))) = 200
  /\ exists x p,
       given (Some (js "eyJpZCI6IjEifQ")) = Some x
       /\ Server.fetchDatadogPrompt keyedDaemon x = inl p
       /\ Server.metaPrompt (js "Restart the worker pool.") = Server.metaPrompt p.
Proof.
  apply (spawn_only_after_fetch keyedDaemon (js "GET") (js "/dd/claude-fix")
           (Some (js "eyJpZCI6IjEifQ"))
           (Server.metaPrompt (js "Restart the worker pool."))).
  vm_compute. reflexivity.
Defined.

Lemma metaPrompt_long p : 200 < length (Server.metaPrompt p).
Proof.
  unfold Server.metaPrompt. rewrite !length_app.
  set (tail := js "IMPORTANT: Do NOT take any action yet. Do NOT use any tools. Do NOT analyze or investigate anything. Simply acknowledge that you received this recommendation and ask me if I want to proceed. Wait for my explicit approval before doing anything.").
  assert (Ht : length tail = 243) by (vm_compute; reflexivity).
  rewrite Ht. lia.
Qed.

(** X25: the preview in the answer 200 is always cut: the meta-prompt alone
    is longer than 200 characters, so the preview is the first 200
    characters of the prompt followed by [...], 203 characters in all,
    however short the recommendation is. *)
Theorem preview_is_always_cut (datadogPrompt : jsstring) :
  Server.preview (Server.metaPrompt datadogPrompt)
  = firstn 200 (Server.metaPrompt datadogPrompt) ++ js "..."
  /\ length (Server.preview (Server.metaPrompt datadogPrompt)) = 203.
Proof.
  pose proof (metaPrompt_long datadogPrompt) as Hl.
  unfold Server.preview.
  destruct (200 <? length (Server.metaPrompt datadogPrompt)) eqn:E;
    [|apply Nat.ltb_ge in E; lia].
  split; [reflexivity|].
  rewrite length_app, length_take.
  change (length (js "...")) with 3. rewrite Nat.min_l by lia. reflexivity.
Qed.

(** X26: without one of the two Datadog keys nothing is fetched and nothing
    is spawned: [handleFix] answers 500 with the message that asks for the
    keys, whatever the exchange with Datadog would give, and the health
    answer says "not configured".  A key counts when the environment or,
    failing that, the configuration holds a non-empty value for it. *)
Theorem missing_keys_block_fetch (d : Server.Daemon) (data x : jsstring) :
  Server.DD_API_KEY d = [] \/ Server.DD_APP_KEY d = [] ->
  given (Some data) = Some x ->
  Server.handleFix d (Some data)
  = (Server.sendJson 500 (Server.ErrorBody keysRequired), None)
  /\ exists t, Server.body (Server.handleHealth d)
               = Server.HealthBody t (js "not configured")
                   (Server.platform d) (Server.pid d) (Server.uptime d).
Proof.
  intros Hk Hx. unfold Server.handleFix, Server.handleHealth, Server.fetchDatadogPrompt.
  rewrite Hx. split.
  - destruct Hk as [-> | ->]; [reflexivity|].
    destruct (Server.DD_API_KEY d); reflexivity.
  - eexists. simpl. f_equal.
    destruct Hk as [-> | ->]; [reflexivity|].
    destruct (Server.DD_API_KEY d); reflexivity.
Qed.

Lemma missing_keys_block_fetch_witness :
  Server.handleFix keylessDaemon (Some (js "eyJpZCI6IjEifQ"))
  = (Server.sendJson 500 (Server.ErrorBody keysRequired), None)
  /\ exists t, Server.body (Server.handleHealth keylessDaemon)
               = Server.HealthBody t (js "not configured")
                   (Server.platform keylessDaemon) (Server.pid keylessDaemon)
                   (Server.uptime keylessDaemon).
Proof.
  apply (missing_keys_block_fetch keylessDaemon (js "eyJpZCI6IjEifQ")
           (js "eyJpZCI6IjEifQ")).
  - right. reflexivity.
  - reflexivity.
Defined.

(** X27: the health answer names a terminal only when it can be launched:
    its [terminal] field is "unavailable", or it is the configured terminal
    name, the platform is macOS and the name is a key of [launchers].  Its
    [datadog] field is "configured" exactly when both keys are not
    empty. *)
Theorem health_reports_launchable_terminal (d : Server.Daemon) :
  exists t datadog,
    Server.handleHealth d
    = Server.sendJson 200
        (Server.HealthBody t datadog (Server.platform d) (Server.pid d)
           (Server.uptime d))
    /\ (t = js "unavailable"
        \/ (t = Server.getTerminalName d /\ Server.platform d = js "darwin"
            /\ Terminal.launcherFor t = Terminal.OwnLauncher t))
    /\ (datadog = js "configured"
        <-> Server.DD_API_KEY d <> [] /\ Server.DD_APP_KEY d <> []).
Proof.
  unfold Server.handleHealth. eexists. eexists. split; [reflexivity|]. split.
  - destruct (Terminal.isTerminalAvailable _ _ _) eqn:E; [|left; reflexivity].
    right. apply isTerminalAvailable_inv in E as [E1 E2]. auto.
  - destruct (Server.DD_API_KEY d) as [|a k]; [|destruct (Server.DD_APP_KEY d) as [|b k']].
    + split; [discriminate|]. intros [H _]. contradiction.
    + split; [discriminate|]. intros [_ H]. contradiction.
    + split; [|reflexivity]. intros _. split; discriminate.
Qed.
